(** * Photo slideshow: the optimizer's data preparation and the solution checker

    A shallow embedding of [slideshow.py] (the optimizer) and of
    [project/VerificationSolution.py] (the checker), with the properties of
    the sequencing engine proved on it.

    Text is a list of characters, Python's [int] is [Z], a [set] of tags is a
    [gset], a [dict] is a [gmap], and a raised exception is the [Raise] case
    of a small error monad. *)

From Stdlib Require Import ZArith QArith.QArith_base Ascii.
From Stdlib Require String.
From stdpp Require Import base numbers option list sets gmap strings pretty.

Set Warnings "-clear-no-such-hyp".

(** ** Text and exceptions *)

Abbreviation str := (list ascii).
Abbreviation tagset := (gset (list ascii)).

(** A string literal as text. *)
Abbreviation txt := String.list_ascii_of_string.

Inductive exn : Type :=
  | ValueError
  | IndexError
  | KeyError.

Inductive result (A : Type) : Type :=
  | Return (a : A)
  | Raise (e : exn).
Arguments Return {A} a.
Arguments Raise {A} e.

#[global] Instance result_ret : MRet result := λ A a, Return a.
#[global] Instance result_bind : MBind result := λ A B k m,
  match m with
  | Return a => k a
  | Raise e => Raise e
  end.

#[global] Instance result_fmap : FMap result := λ A B f m,
  match m with
  | Return a => Return (f a)
  | Raise e => Raise e
  end.

Definition raises {A} (m : result A) : Prop :=
  match m with Return _ => False | Raise _ => True end.

Definition or_raise {A} (e : exn) (o : option A) : result A :=
  match o with Some a => Return a | None => Raise e end.

(** ** The Python primitives the two programs use *)

Module Py.
Local Open Scope Z_scope.

(** [str.isspace] on the ASCII range: tab to carriage return, the four
    separators 28..31 and the blank. *)
Definition isspace (c : ascii) : bool :=
  let n := N_of_ascii c in
  (((9 <=? n) && (n <=? 13)) || ((28 <=? n) && (n <=? 32)))%N.

Definition newline : ascii := ascii_of_N 10.

(** [f.readline()] on the text still to be read: the line with its
    newline, and what is left; the empty text at the end of the file.
    The text is what the text layer delivers, newlines already
    translated. *)
Fixpoint readline (f : str) : str * str :=
  match f with
  | [] => ([], [])
  | c :: r =>
      if decide (c = newline) then ([c], r)
      else let '(l, r') := readline r in (c :: l, r')
  end.

Fixpoint lstrip (s : str) : str :=
  match s with
  | [] => []
  | c :: r => if isspace c then lstrip r else s
  end.

(** [s.strip()] *)
Definition strip (s : str) : str := reverse (lstrip (reverse (lstrip s))).

(** [s.split()] with no separator: the maximal runs without white space.
    [cur] is the run being read, last character first. *)
Fixpoint split_go (cur : str) (s : str) : list str :=
  match s with
  | [] => match cur with [] => [] | _ => [reverse cur] end
  | c :: r =>
      if isspace c
      then match cur with [] => split_go [] r | _ => reverse cur :: split_go [] r end
      else split_go (c :: cur) r
  end.
Definition split (s : str) : list str := split_go [] s.

(** [sep.join(l)] *)
Fixpoint join (sep : str) (l : list str) : str :=
  match l with
  | [] => []
  | [x] => x
  | x :: xs => x ++ sep ++ join sep xs
  end.

Definition digit (c : ascii) : option Z :=
  let n := N_of_ascii c in
  if ((48 <=? n) && (n <=? 57))%N then Some (Z.of_N (n - 48)) else None.

Definition underscore : ascii := ascii_of_N 95.

(** The digits after the first one: a single underscore may stand
    between two digits. *)
Fixpoint digits_go (acc : Z) (s : str) : option Z :=
  match s with
  | [] => Some acc
  | c :: r =>
      if decide (c = underscore) then
        match r with
        | c' :: r' => d ← digit c'; digits_go (10 * acc + d) r'
        | [] => None
        end
      else d ← digit c; digits_go (10 * acc + d) r
  end.

Definition digits (s : str) : option Z :=
  match s with
  | [] => None
  | c :: r => d ← digit c; digits_go d r
  end.

Definition minus : ascii := ascii_of_N 45.
Definition plus : ascii := ascii_of_N 43.

(** [int(s)] in base ten: white space around, an optional sign, digits.
    [None] is the [ValueError]. Digits outside ASCII and the
    interpreter's cap on the number of digits are left out. *)
Definition int (s : str) : option Z :=
  match strip s with
  | [] => None
  | c :: r =>
      if decide (c = minus) then Z.opp <$> digits r
      else if decide (c = plus) then digits r
      else digits (c :: r)
  end.

(** [str(z)] *)
Definition str_of (z : Z) : str := String.list_ascii_of_string (pretty z).

(** [l[i]]: a negative index counts from the end; [None] is the
    [IndexError]. *)
Definition getitem {A} (l : list A) (i : Z) : option A :=
  let n := Z.of_nat (length l) in
  if 0 <=? i then l !! Z.to_nat i
  else if 0 <=? i + n then l !! Z.to_nat (i + n)
  else None.

(** [l[start:stop]]: negative bounds count from the end, and both are
    clamped to the list. *)
Definition slice {A} (l : list A) (start stop : Z) : list A :=
  let n := Z.of_nat (length l) in
  let clamp i := if i <? 0 then Z.max 0 (i + n) else Z.min i n in
  let a := clamp start in
  let b := clamp stop in
  take (Z.to_nat (b - a)) (drop (Z.to_nat a) l).

(** [min(a, b, c)] *)
Definition min3 (a b c : nat) : nat := Nat.min (Nat.min a b) c.

End Py.

(** ** The data model *)

(** The [Photo] dataclass, declared alike in both programs. *)
Record Photo : Type := mkPhoto {
  id : Z;
  is_horizontal : bool;
  tags : tagset;
}.

#[global] Instance Photo_eq_dec : EqDecision Photo.
Proof. solve_decision. Defined.

(** A [for] loop whose body may raise: the state is threaded through the
    items in order. *)
Fixpoint for_each {A S} (l : list A) (body : A → S → result S) (s : S) : result S :=
  match l with
  | [] => Return s
  | x :: r => s' ← body x s; for_each r body s'
  end.

(** ** slideshow.py *)

Module Slideshow.
Local Open Scope Z_scope.

(** The loop of [read_input]: [k] records still to read, the next one
    getting identity [i]. *)
Fixpoint read_records (k : nat) (i : Z) (f : str) : result (list Photo) :=
  match k with
  | O => Return []
  | S k' =>
      let '(l, f') := Py.readline f in
      let line := Py.split (Py.strip l) in
      t0 ← or_raise IndexError (Py.getitem line 0);
      let is_h := bool_decide (t0 = txt "H") in
      t1 ← or_raise IndexError (Py.getitem line 1);
      n_tags ← or_raise ValueError (Py.int t1);
      let tgs : tagset := list_to_set (Py.slice line 2 (2 + n_tags)) in
      rest ← read_records k' (i + 1) f';
      Return (mkPhoto i is_h tgs :: rest)
  end.

Definition read_input (f : str) : result (list Photo) :=
  let '(l, f') := Py.readline f in
  n ← or_raise ValueError (Py.int l);
  read_records (Z.to_nat n) 0 f'.

Definition get_transition_score (tags1 tags2 : tagset) : nat :=
  let common_tags := size (tags1 ∩ tags2) in
  let tags_only_in_1 := size (tags1 ∖ tags2) in
  let tags_only_in_2 := size (tags2 ∖ tags1) in
  Py.min3 common_tags tags_only_in_1 tags_only_in_2.

(** [itertools.combinations(l, 2)] *)
Fixpoint combinations2 {A} (l : list A) : list (A * A) :=
  match l with
  | [] => []
  | x :: r => ((λ y, (x, y)) <$> r) ++ combinations2 r
  end.

(** What a slide position can hold, and so a key of the decision
    variables and of the score table: a horizontal photo or a pair of
    vertical ones. *)
Inductive unit_key : Type :=
  | KH (i : Z)
  | KP (pair : Z * Z).

#[global] Instance unit_key_eq_dec : EqDecision unit_key.
Proof. solve_decision. Defined.

#[global] Instance unit_key_countable : Countable unit_key.
Proof.
  refine (inj_countable'
    (λ k, match k with KH i => inl i | KP pr => inr pr end)
    (λ s, match s with inl i => KH i | inr pr => KP pr end) _).
  by intros [].
Defined.

(** The attributes [__init__] sets. *)
Record optimizer : Type := mkOptimizer {
  photos : list Photo;
  n_photos : nat;
  horizontal_photos : list Z;
  vertical_photos : list Z;
  vertical_pairs : list (Z * Z);
  vertical_pair_tags : gmap (Z * Z) tagset;
  transition_scores : gmap (unit_key * unit_key) nat;
}.

(** [photos[i].tags] *)
Definition tags_at (photos : list Photo) (i : Z) : result tagset :=
  or_raise IndexError (tags <$> Py.getitem photos i).

(** The loop over the combinations: the pair is appended and its
    combined tags are stored. *)
Definition pair_body (photos : list Photo) (c : Z * Z)
    (st : list (Z * Z) * gmap (Z * Z) tagset)
    : result (list (Z * Z) * gmap (Z * Z) tagset) :=
  let '(i, j) := c in
  ti ← tags_at photos i;
  tj ← tags_at photos j;
  let combined_tags := ti ∪ tj in
  Return (st.1 ++ [(i, j)], <[(i, j) := combined_tags]> st.2).

Definition pair_tags (vpt : gmap (Z * Z) tagset) (pair : Z * Z) : result tagset :=
  or_raise KeyError (vpt !! pair).

Definition scores_hh (photos : list Photo) (hs : list Z)
    : gmap (unit_key * unit_key) nat → result (gmap (unit_key * unit_key) nat) :=
  for_each hs (λ i, for_each hs (λ j ts,
    if decide (i ≠ j) then
      ti ← tags_at photos i;
      tj ← tags_at photos j;
      Return (<[(KH i, KH j) := get_transition_score ti tj]> ts)
    else Return ts)).

Definition scores_hp (photos : list Photo) (hs : list Z) (pairs : list (Z * Z))
    (vpt : gmap (Z * Z) tagset)
    : gmap (unit_key * unit_key) nat → result (gmap (unit_key * unit_key) nat) :=
  for_each hs (λ i, for_each pairs (λ pair ts,
    ti ← tags_at photos i;
    tp ← pair_tags vpt pair;
    let score := get_transition_score ti tp in
    Return (<[(KP pair, KH i) := score]> (<[(KH i, KP pair) := score]> ts)))).

Definition scores_pp (pairs : list (Z * Z)) (vpt : gmap (Z * Z) tagset)
    : gmap (unit_key * unit_key) nat → result (gmap (unit_key * unit_key) nat) :=
  for_each pairs (λ pair1, for_each pairs (λ pair2 ts,
    if decide (pair1 ≠ pair2) then
      t1 ← pair_tags vpt pair1;
      t2 ← pair_tags vpt pair2;
      Return (<[(KP pair1, KP pair2) := get_transition_score t1 t2]> ts)
    else Return ts)).

(** [PhotoSlideshowOptimizer.__init__] *)
Definition init (photos : list Photo) : result optimizer :=
  let hs := id <$> filter (λ p, is_horizontal p = true) photos in
  let vs := id <$> filter (λ p, is_horizontal p = false) photos in
  '(pairs, vpt) ← for_each (combinations2 vs) (pair_body photos) ([], ∅);
  ts ← scores_hh photos hs ∅;
  ts ← scores_hp photos hs pairs vpt ts;
  ts ← scores_pp pairs vpt ts;
  Return (mkOptimizer photos (length photos) hs vs pairs vpt ts).

(** The status codes of the solving engine. *)
Inductive grb_status : Type :=
  | LOADED | OPTIMAL | INFEASIBLE | INF_OR_UNBD | UNBOUNDED | CUTOFF
  | ITERATION_LIMIT | NODE_LIMIT | TIME_LIMIT | SOLUTION_LIMIT
  | INTERRUPTED | NUMERIC | SUBOPTIMAL | INPROGRESS | USER_OBJ_LIMIT
  | WORK_LIMIT | MEM_LIMIT.

(** What [optimize] reads from the model once [m.optimize()] is back:
    the status, for each variable [x[u, p]] whether its value exceeds
    0.5, and the objective value. The search itself belongs to the
    engine. *)
Record solved : Type := mkSolved {
  status : grb_status;
  X : unit_key → nat → bool;
  objVal : Q;
}.

(** The left sides of the two families of constraints [optimize] posts,
    at the values of a solved model: what position [p] holds, and how
    often photo [i] is used. *)
Definition position_load (self : optimizer) (x : unit_key → nat → bool) (p : nat) : nat :=
  (sum_list_with (λ i, Nat.b2n (x (KH i) p)) (horizontal_photos self)
   + sum_list_with (λ pair, Nat.b2n (x (KP pair) p)) (vertical_pairs self))%nat.

Definition photo_load (self : optimizer) (x : unit_key → nat → bool) (i : Z) : nat :=
  if decide (i ∈ horizontal_photos self) then
    sum_list_with (λ p, Nat.b2n (x (KH i) p)) (seq 0 (n_photos self))
  else
    sum_list_with
      (λ pair, sum_list_with (λ p, Nat.b2n (x (KP pair) p)) (seq 0 (n_photos self)))
      (filter (λ pair : Z * Z, i = pair.1 ∨ i = pair.2) (vertical_pairs self)).

Definition constraints (self : optimizer) (x : unit_key → nat → bool) : Prop :=
  Forall (λ p, (position_load self x p ≤ 1)%nat) (seq 0 (n_photos self))
  ∧ Forall (λ i, (photo_load self x (Z.of_nat i) ≤ 1)%nat) (seq 0 (n_photos self)).

(** The slides read off the variables, position by position. *)
Definition extract (self : optimizer) (x : unit_key → nat → bool) : list (list Z) :=
  p ← seq 0 (n_photos self);
  (i ← horizontal_photos self; if x (KH i) p then [[i]] else [])
  ++ (pair ← vertical_pairs self; if x (KP pair) p then [[pair.1; pair.2]] else []).

(** The end of [optimize]. *)
Definition optimize (self : optimizer) (m : solved) : option (list (list Z)) * Q :=
  match status m with
  | OPTIMAL | TIME_LIMIT => (Some (extract self (X m)), objVal m)
  | _ => (None, 0%Q)
  end.

(** The text [main] writes into the solution file. *)
Definition write_solution (solution : list (list Z)) : str :=
  Py.str_of (Z.of_nat (length solution)) ++ [Py.newline]
  ++ (slide ← solution; Py.join [" "%char] (Py.str_of <$> slide) ++ [Py.newline]).

(** [main] writes a file under [if solution:] only. *)
Definition main_output (solution : option (list (list Z))) : option str :=
  match solution with
  | Some (slide :: rest) => Some (write_solution (slide :: rest))
  | _ => None
  end.

End Slideshow.

(** ** project/VerificationSolution.py *)

Module SolutionChecker.
Local Open Scope Z_scope.

(** The attributes [__init__] sets; [photos] is the dict by id, a later
    photo replacing an earlier one of the same id. *)
Record checker : Type := mkChecker {
  photos : gmap Z Photo;
  n_photos : nat;
}.

Definition init (l : list Photo) : checker :=
  mkChecker (foldl (λ m photo, <[id photo := photo]> m) ∅ l) (length l).

Fixpoint read_records (k : nat) (i : Z) (f : str) : result (list Photo) :=
  match k with
  | O => Return []
  | S k' =>
      let '(l, f') := Py.readline f in
      let line := Py.split (Py.strip l) in
      t0 ← or_raise IndexError (Py.getitem line 0);
      let is_h := bool_decide (t0 = txt "H") in
      let tgs : tagset := list_to_set (drop 2 line) in
      rest ← read_records k' (i + 1) f';
      Return (mkPhoto i is_h tgs :: rest)
  end.

Definition read_input_file (f : str) : result (list Photo) :=
  let '(l, f') := Py.readline f in
  n ← or_raise ValueError (Py.int (Py.strip l));
  read_records (Z.to_nat n) 0 f'.

Fixpoint read_slides (k : nat) (f : str) : result (list (list Z)) :=
  match k with
  | O => Return []
  | S k' =>
      let '(l, f') := Py.readline f in
      let line := Py.split (Py.strip l) in
      if decide (length line ∈ [1; 2]%nat) then
        slide ← or_raise ValueError (mapM Py.int line);
        rest ← read_slides k' f';
        Return (slide :: rest)
      else Raise ValueError
  end.

Definition read_solution_file (f : str) : result (list (list Z)) :=
  let '(l, f') := Py.readline f in
  n_slides ← or_raise ValueError (Py.int (Py.strip l));
  read_slides (Z.to_nat n_slides) f'.

(** What [is_valid_solution] returns: [Valid] is [(True, ...)], each
    other case is [(False, ...)] with the values its message shows. *)
Inductive verdict : Type :=
  | Valid
  | InvalidCount (i : nat) (len : nat)
      (* Slide {i} a un nombre invalide de photos ({len}). *)
  | UsedTwice (photo_id : Z)
      (* Photo {photo_id} est utilisee plusieurs fois. *)
  | InvalidId (photo_id : Z)
      (* ID de photo invalide : {photo_id}. *)
  | SingleVertical (i : nat)
      (* Slide {i} contient une seule photo verticale. *)
  | HorizontalInPair (i : nat).
      (* Slide {i} contient une photo horizontale dans une paire verticale. *)

#[global] Instance verdict_eq_dec : EqDecision verdict.
Proof. solve_decision. Defined.

(** [self.photos[photo_id]] *)
Definition photo_of (self : checker) (photo_id : Z) : result Photo :=
  or_raise KeyError (photos self !! photo_id).

(** The loop over the ids of one slide: it returns early with a verdict,
    or ends with the ids added to [used_photos]. *)
Fixpoint check_ids (self : checker) (used_photos : gset Z) (slide : list Z)
    : verdict + gset Z :=
  match slide with
  | [] => inr used_photos
  | photo_id :: r =>
      if decide (photo_id ∈ used_photos) then inl (UsedTwice photo_id)
      else if decide (photo_id ∉ dom (photos self)) then inl (InvalidId photo_id)
      else check_ids self ({[photo_id]} ∪ used_photos) r
  end.

(** [len(slide) == 1 and not self.photos[slide[0]].is_horizontal] *)
Definition single_vertical (self : checker) (slide : list Z) : result bool :=
  if decide (length slide = 1%nat) then
    s0 ← or_raise IndexError (Py.getitem slide 0);
    p0 ← photo_of self s0;
    Return (negb (is_horizontal p0))
  else Return false.

(** [self.photos[slide[0]].is_horizontal or self.photos[slide[1]].is_horizontal] *)
Definition pair_has_horizontal (self : checker) (slide : list Z) : result bool :=
  s0 ← or_raise IndexError (Py.getitem slide 0);
  p0 ← photo_of self s0;
  if is_horizontal p0 then Return true
  else
    s1 ← or_raise IndexError (Py.getitem slide 1);
    p1 ← photo_of self s1;
    Return (is_horizontal p1).

(** The loop over the slides, from slide [i] on. *)
Fixpoint check_slides (self : checker) (used_photos : gset Z) (i : nat)
    (slides : list (list Z)) : result verdict :=
  match slides with
  | [] => Return Valid
  | slide :: rest =>
      if decide (length slide ∉ [1; 2]%nat)
      then Return (InvalidCount i (length slide))
      else
        match check_ids self used_photos slide with
        | inl v => Return v
        | inr used_photos' =>
            sv ← single_vertical self slide;
            if sv : bool then Return (SingleVertical i)
            else
              ph ← (if decide (length slide = 2%nat)
                    then pair_has_horizontal self slide else Return false);
              if ph : bool then Return (HorizontalInPair i)
              else check_slides self used_photos' (S i) rest
        end
  end.

Definition is_valid_solution (self : checker) (slides : list (list Z)) : result verdict :=
  check_slides self ∅ 0 slides.

Definition get_slide_tags (self : checker) (slide : list Z) : result tagset :=
  ts ← mapM (λ photo_id, tags <$> photo_of self photo_id) slide;
  Return (⋃ ts).

Definition compute_transition_score (tags1 tags2 : tagset) : nat :=
  let common_tags := size (tags1 ∩ tags2) in
  let unique_tags_1 := size (tags1 ∖ tags2) in
  let unique_tags_2 := size (tags2 ∖ tags1) in
  Py.min3 common_tags unique_tags_1 unique_tags_2.

(** The loop of [compute_score] over [slides[1:]]. *)
Fixpoint score_loop (self : checker) (previous_tags : tagset) (total_score : nat)
    (slides : list (list Z)) : result nat :=
  match slides with
  | [] => Return total_score
  | slide :: rest =>
      current_tags ← get_slide_tags self slide;
      score_loop self current_tags
        (total_score + compute_transition_score previous_tags current_tags)%nat rest
  end.

Definition compute_score (self : checker) (slides : list (list Z)) : result nat :=
  match slides with
  | [] => Return 0%nat
  | slide0 :: rest =>
      previous_tags ← get_slide_tags self slide0;
      score_loop self previous_tags 0%nat rest
  end.

End SolutionChecker.

(** * Properties *)

(** ** The transition score *)

Section score.
Implicit Types A B : tagset.

Lemma size_inter_le_l A B : size (A ∩ B) ≤ size A.
Proof. apply subseteq_size, intersection_subseteq_l. Qed.

Lemma size_inter_le_r A B : size (A ∩ B) ≤ size B.
Proof. apply subseteq_size, intersection_subseteq_r. Qed.

Lemma size_diff_self A : size (A ∖ A) = 0.
Proof. by rewrite difference_diag_L, size_empty. Qed.

Lemma inter_comm A B : A ∩ B = B ∩ A.
Proof. apply (comm_L (∩)). Qed.

Lemma size_inter_empty_l B : size (∅ ∩ B) = 0.
Proof. by rewrite (left_absorb_L ∅ (∩)), size_empty. Qed.

Lemma size_inter_empty_r A : size (A ∩ ∅) = 0.
Proof. by rewrite (right_absorb_L ∅ (∩)), size_empty. Qed.
End score.

(** C1: the transition score is min(common, onlyA, onlyB); hence it is
    symmetric, lies between 0 and min(|A|,|B|), and is 0 on identical sets
    and when either set is empty. *)
Theorem C1_transition_score (A B : tagset) :
  Slideshow.get_transition_score A B
    = Nat.min (Nat.min (size (A ∩ B)) (size (A ∖ B))) (size (B ∖ A))
  ∧ Slideshow.get_transition_score A B = Slideshow.get_transition_score B A
  ∧ (0 ≤ Slideshow.get_transition_score A B ≤ Nat.min (size A) (size B))%nat
  ∧ Slideshow.get_transition_score A A = 0%nat
  ∧ Slideshow.get_transition_score ∅ B = 0%nat
  ∧ Slideshow.get_transition_score A ∅ = 0%nat.
Proof.
  unfold Slideshow.get_transition_score, Py.min3.
  split; [done|]. split.
  { rewrite (inter_comm B A). lia. }
  split.
  { pose proof (size_inter_le_l A B). pose proof (size_inter_le_r A B). lia. }
  split.
  { rewrite size_diff_self. lia. }
  split.
  - rewrite size_inter_empty_l. lia.
  - rewrite size_inter_empty_r. lia.
Qed.

(** C10: the optimizer's and the checker's transition scores are the same
    function. *)
Theorem C10_scores_agree (tags1 tags2 : tagset) :
  Slideshow.get_transition_score tags1 tags2
    = SolutionChecker.compute_transition_score tags1 tags2.
Proof. reflexivity. Qed.

(** ** The validator *)

Section validator.
Import SolutionChecker.
Variable self : checker.
Implicit Types (used : gset Z) (slide : list Z) (slides : list (list Z)).

Definition known (x : Z) : Prop := x ∈ dom (photos self).
Definition wide (x : Z) : Prop :=
  ∃ p, photos self !! x = Some p ∧ is_horizontal p = true.
Definition narrow (x : Z) : Prop :=
  ∃ p, photos self !! x = Some p ∧ is_horizontal p = false.

Definition ids_ok used slide : Prop :=
  NoDup slide ∧ ∀ x, x ∈ slide → (x ∉ used) ∧ known x.

Definition slide_ok used slide : Prop :=
  (length slide = 1 ∨ length slide = 2)
  ∧ ids_ok used slide
  ∧ (∀ x, slide = [x] → wide x)
  ∧ (∀ x y, slide = [x; y] → narrow x ∧ narrow y).

Fixpoint feasible_from used slides : Prop :=
  match slides with
  | [] => True
  | slide :: rest => slide_ok used slide ∧ feasible_from (list_to_set slide ∪ used) rest
  end.

Lemma check_ids_inr used slide used' :
  check_ids self used slide = inr used'
  ↔ ids_ok used slide ∧ used' = list_to_set slide ∪ used.
Proof.
  revert used. induction slide as [|x r IH]; intros used; simpl.
  - split.
    + intros [= <-]. split; [split; [constructor|set_solver]|set_solver].
    + intros [_ ->]. f_equal. set_solver.
  - destruct (decide (x ∈ used)) as [Hu|Hu].
    { split; [done|]. intros [[_ H] _]. destruct (H x); [left|done]. }
    destruct (decide (x ∉ dom (photos self))) as [Hd|Hd].
    { split; [done|]. intros [[_ H] _]. destruct (H x) as [_ ?]; [left|done]. }
    rewrite IH. unfold ids_ok. split.
    + intros [[Hnd H] ->]. split; [split|set_solver].
      * constructor; [|done]. intros Hx. destruct (H x Hx). set_solver.
      * intros y [->|Hy]%elem_of_cons.
        -- split; [done|]. by apply dec_stable.
        -- destruct (H y Hy). set_solver.
    + intros [[Hnd H] ->]. apply NoDup_cons in Hnd as [Hx Hnd].
      split; [split; [done|]|set_solver].
      intros y Hy. destruct (H y) as [??]; [by right|].
      split; [|done]. set_solver.
Qed.

(** When the loop over the ids returns early, it is at the first id
    that is already used or is not in the catalog. *)
Lemma check_ids_inl used slide v :
  check_ids self used slide = inl v →
  ∃ ok x r, slide = ok ++ x :: r ∧ ids_ok used ok
    ∧ ((x ∈ list_to_set ok ∪ used ∧ v = UsedTwice x)
       ∨ ((x ∉ list_to_set ok ∪ used) ∧ ¬ known x ∧ v = InvalidId x)).
Proof.
  revert used. induction slide as [|x r IH]; intros used; simpl; [done|].
  destruct (decide (x ∈ used)) as [Hu|Hu].
  { intros [= <-]. exists [], x, r. split; [done|]. split.
    - split; [constructor|]. by intros ? ?%elem_of_nil.
    - left. split; [set_solver|done]. }
  destruct (decide (x ∉ dom (photos self))) as [Hd|Hd].
  { intros [= <-]. exists [], x, r. split; [done|]. split.
    - split; [constructor|]. by intros ? ?%elem_of_nil.
    - right. split; [set_solver|done]. }
  intros (ok & y & r' & -> & [Hnd Hok] & Hy)%IH.
  exists (x :: ok), y, r'. split; [done|]. split.
  - split.
    + constructor; [|done]. intros Hx. destruct (Hok x Hx). set_solver.
    + intros z [->|Hz]%elem_of_cons.
      * split; [done|]. by apply dec_stable.
      * destruct (Hok z Hz). split; [set_solver|done].
  - assert (list_to_set ok ∪ ({[x]} ∪ used) = list_to_set (x :: ok) ∪ used)
      as <- by set_solver.
    done.
Qed.

(** The violation a slide at index [i] gives when the ids in [used]
    were seen before it: the first that applies, in the order of the
    checks. *)
Inductive slide_violation used (i : nat) slide : verdict → Prop :=
  | sv_count :
      length slide ≠ 1 → length slide ≠ 2 →
      slide_violation used i slide (InvalidCount i (length slide))
  | sv_used ok x r :
      length slide = 1 ∨ length slide = 2 →
      slide = ok ++ x :: r → ids_ok used ok → x ∈ list_to_set ok ∪ used →
      slide_violation used i slide (UsedTwice x)
  | sv_unknown ok x r :
      length slide = 1 ∨ length slide = 2 →
      slide = ok ++ x :: r → ids_ok used ok → x ∉ list_to_set ok ∪ used →
      ¬ known x →
      slide_violation used i slide (InvalidId x)
  | sv_single x :
      slide = [x] → ids_ok used slide → narrow x →
      slide_violation used i slide (SingleVertical i)
  | sv_pair x y :
      slide = [x; y] → ids_ok used slide → wide x ∨ wide y →
      slide_violation used i slide (HorizontalInPair i).

Lemma known_lookup x : known x → ∃ p, photos self !! x = Some p.
Proof. unfold known. rewrite elem_of_dom. by intros [p ?]; exists p. Qed.

Lemma wide_or_narrow x : known x → wide x ∨ narrow x.
Proof.
  intros [p Hp]%known_lookup. unfold wide, narrow.
  destruct (is_horizontal p) eqn:?; eauto.
Qed.

Lemma wide_not_narrow x : wide x → narrow x → False.
Proof. intros (p & ? & ?) (q & ? & ?). congruence. Qed.

(** One turn of the loop over the slides. *)
Lemma check_slides_cons used i slide rest :
  (slide_ok used slide
   ∧ check_slides self used i (slide :: rest)
     = check_slides self (list_to_set slide ∪ used) (S i) rest)
  ∨ (∃ v, slide_violation used i slide v
     ∧ check_slides self used i (slide :: rest) = Return v).
Proof.
  simpl. destruct (decide (length slide ∉ [1; 2])) as [Hlen|Hlen].
  { right. eexists. split; [|done].
    constructor; intros E; apply Hlen; rewrite E; set_solver. }
  apply dec_stable in Hlen.
  assert (length slide = 1 ∨ length slide = 2) as Hlen' by set_solver.
  destruct (check_ids self used slide) as [v|used'] eqn:Hids.
  { right. exists v. split; [|done].
    apply check_ids_inl in Hids as (ok & x & r & -> & Hok & [[? ->]|(? & ? & ->)]).
    - by eapply sv_used.
    - by eapply sv_unknown. }
  apply check_ids_inr in Hids as [Hok ->].
  destruct slide as [|x [|y [|z r]]]; simpl in Hlen'; try lia.
  - (* one photo *)
    destruct Hok as [Hnd Hok].
    destruct (Hok x) as [_ Hk]; [left|].
    destruct (known_lookup x Hk) as [p Hp].
    unfold single_vertical, photo_of. simpl. rewrite Hp. simpl.
    destruct (is_horizontal p) eqn:Hh; simpl.
    + left. split; [|done]. split; [by left|]. split; [done|]. split.
      * intros ? [= <-]. by exists p.
      * intros ?? [=].
    + right. eexists. split; [|done]. eapply sv_single; [done|done|by exists p].
  - (* two photos *)
    pose proof Hok as [Hnd Hok'].
    destruct (Hok' x) as [_ Hkx]; [left|].
    destruct (Hok' y) as [_ Hky]; [right; left|].
    destruct (known_lookup x Hkx) as [p Hp].
    destruct (known_lookup y Hky) as [q Hq].
    unfold single_vertical, pair_has_horizontal, photo_of. simpl.
    rewrite Hp. simpl.
    destruct (is_horizontal p) eqn:Hh; simpl.
    { right. eexists. split; [|done].
      eapply sv_pair; [done|done|]. left. by exists p. }
    rewrite Hq. simpl.
    destruct (is_horizontal q) eqn:Hh'; simpl.
    { right. eexists. split; [|done].
      eapply sv_pair; [done|done|]. right. by exists q. }
    left. split; [|done]. split; [by right|]. split; [done|]. split.
    + intros ? [=].
    + intros ?? [= <- <-]. split; [by exists p|by exists q].
Qed.

Lemma slide_violation_not_ok used i slide v :
  slide_violation used i slide v → ¬ slide_ok used slide.
Proof.
  intros Hv (Hlen & [Hnd Hok] & Hw & Hn). destruct Hv as
    [H1 H2|ok x r _ -> _ Hx|ok x r _ -> _ _ Hx|x -> _ Hx|x y -> _ Hx].
  - lia.
  - apply NoDup_app in Hnd as (_ & Hd & _).
    destruct (Hok x) as [??]; [set_solver|].
    apply elem_of_union in Hx as [Hx|Hx]; [|done].
    apply (Hd x); [set_solver|left].
  - destruct (Hok x) as [??]; [set_solver|done].
  - eapply wide_not_narrow; [by apply Hw|done].
  - destruct (Hn x y eq_refl) as [??].
    destruct Hx; eapply wide_not_narrow; done.
Qed.

Lemma slide_violation_not_valid used i slide v :
  slide_violation used i slide v → v ≠ Valid.
Proof. by destruct 1. Qed.

Lemma check_slides_valid used i slides :
  check_slides self used i slides = Return Valid ↔ feasible_from used slides.
Proof.
  revert used i. induction slides as [|slide rest IH]; intros used i; [done|].
  destruct (check_slides_cons used i slide rest) as [[Hok ->]|(v & Hv & ->)].
  - rewrite IH. simpl. tauto.
  - simpl. split.
    + intros [= ->]. by apply slide_violation_not_valid in Hv.
    + intros [Hok _]. by apply slide_violation_not_ok in Hv.
Qed.

Lemma check_slides_total used i slides :
  ∃ v, check_slides self used i slides = Return v.
Proof.
  revert used i. induction slides as [|slide rest IH]; intros used i.
  - by exists Valid.
  - destruct (check_slides_cons used i slide rest) as [[Hok ->]|(v & Hv & ->)];
      [apply IH|by exists v].
Qed.

Lemma check_slides_violation used i slides v :
  check_slides self used i slides = Return v → v ≠ Valid →
  ∃ pre slide post, slides = pre ++ slide :: post
    ∧ feasible_from used pre
    ∧ slide_violation (list_to_set (concat pre) ∪ used) (i + length pre) slide v.
Proof.
  revert used i. induction slides as [|slide rest IH]; intros used i.
  { by intros [= <-]. }
  destruct (check_slides_cons used i slide rest) as [[Hok ->]|(w & Hw & ->)].
  - intros Hc Hne. destruct (IH _ _ Hc Hne) as (pre & s & post & -> & Hpre & Hv).
    exists (slide :: pre), s, post. split; [done|]. split; [done|].
    simpl. rewrite list_to_set_app_L.
    replace (i + S (length pre)) with (S i + length pre) by lia.
    replace (list_to_set slide ∪ list_to_set (concat pre) ∪ used)
      with (list_to_set (concat pre) ∪ (list_to_set slide ∪ used)) by set_solver.
    done.
  - intros [= <-] _. exists [], slide, rest. split; [done|]. split; [done|].
    assert (list_to_set (concat []) ∪ used = used) as -> by set_solver.
    simpl. by rewrite Nat.add_0_r.
Qed.

(** Feasibility of a whole sequence. *)
Definition feasible slides : Prop :=
  Forall (λ slide, length slide = 1 ∨ length slide = 2) slides
  ∧ NoDup (concat slides)
  ∧ Forall known (concat slides)
  ∧ Forall (λ slide, ∀ x, slide = [x] → wide x) slides
  ∧ Forall (λ slide, ∀ x y, slide = [x; y] → narrow x ∧ narrow y) slides.

Lemma feasible_from_iff used slides :
  feasible_from used slides
  ↔ feasible slides ∧ ∀ x, x ∈ concat slides → x ∉ used.
Proof.
  unfold feasible.
  revert used. induction slides as [|slide rest IH]; intros used; simpl.
  { split; [|done]. intros _. repeat split; try constructor.
    by intros ? ?%elem_of_nil. }
  rewrite IH. unfold slide_ok, ids_ok.
  rewrite !Forall_cons, Forall_app, NoDup_app, (Forall_forall known slide).
  split.
  - intros ((Hlen & (Hnd & Hids) & Hw & Hn) & (Hl & Hnd' & Hk & Hw' & Hn') & Hfresh).
    split_and!; try done.
    + intros x Hx Hx'. apply (Hfresh x Hx'). set_solver.
    + intros x Hx. by apply Hids.
    + intros x Hx. apply elem_of_app in Hx as [Hx|Hx]; [by apply Hids|].
      specialize (Hfresh x Hx). set_solver.
  - intros (((Hlen & Hl) & (Hnd & Hdis & Hnd') & (Hk & Hk') & (Hw & Hw') & Hn & Hn') & Hfresh).
    split_and!; try done.
    + intros x Hx. split; [|by apply Hk]. apply Hfresh. set_solver.
    + intros x Hx Hx'. apply elem_of_union in Hx' as [Hx'%elem_of_list_to_set|Hx'].
      * by apply (Hdis x).
      * apply (Hfresh x); [set_solver|done].
Qed.

Lemma is_valid_solution_valid slides :
  is_valid_solution self slides = Return Valid ↔ feasible slides.
Proof.
  unfold is_valid_solution. rewrite check_slides_valid, feasible_from_iff.
  split; [tauto|]. intros ?. split; [done|]. set_solver.
Qed.
End validator.

(** The prefix of a sequence that is feasible is passed over. *)
Lemma check_slides_app self used i pre rest :
  feasible_from self used pre →
  SolutionChecker.check_slides self used i (pre ++ rest)
  = SolutionChecker.check_slides self (list_to_set (concat pre) ∪ used) (i + length pre) rest.
Proof.
  revert used i. induction pre as [|slide pre IH]; intros used i.
  - intros _. simpl. rewrite Nat.add_0_r. f_equal. set_solver.
  - intros [Hok Hpre]. rewrite <-app_comm_cons.
    destruct (check_slides_cons self used i slide (pre ++ rest)) as [[_ ->]|(v & Hv & _)].
    + rewrite IH by done. simpl. rewrite list_to_set_app_L. f_equal; [set_solver|lia].
    + by apply slide_violation_not_ok in Hv.
Qed.

Lemma check_ids_app self used ok r :
  ids_ok self used ok →
  SolutionChecker.check_ids self used (ok ++ r)
  = SolutionChecker.check_ids self (list_to_set ok ∪ used) r.
Proof.
  revert used. induction ok as [|x ok IH]; intros used [Hnd Hok]; simpl.
  { f_equal. set_solver. }
  destruct (Hok x) as [Hx Hk]; [left|].
  rewrite decide_False by done.
  rewrite decide_False by (by intros ?).
  apply NoDup_cons in Hnd as [Hx' Hnd].
  rewrite IH.
  - f_equal. set_solver.
  - split; [done|]. intros y Hy. destruct (Hok y); [by right|].
    split; [set_solver|done].
Qed.

(** What the claim of the specification takes for feasible: ids may not
    recur across slides. *)
Definition claimed_feasible (self : SolutionChecker.checker) (slides : list (list Z)) : Prop :=
  Forall (λ slide, length slide = 1 ∨ length slide = 2) slides
  ∧ (∀ i j s t x, i ≠ j → slides !! i = Some s → slides !! j = Some t → x ∈ s → x ∉ t)
  ∧ Forall (λ slide, ∀ x, slide = [x] → wide self x) slides
  ∧ Forall (λ slide, ∀ x y, slide = [x; y] → narrow self x ∧ narrow self y) slides.

(** C3, as stated, fails: a slide that holds one vertical photo twice
    meets the four conditions and is rejected. *)
Lemma C3_counterexample :
  ¬ (∀ self slides,
       SolutionChecker.is_valid_solution self slides = Return SolutionChecker.Valid
       ↔ claimed_feasible self slides).
Proof.
  intros H.
  pose (self := SolutionChecker.init [mkPhoto 0 false ∅]).
  destruct (H self [[0; 0]]%Z) as [_ H']. 
  assert (narrow self 0) as Hn.
  { exists (mkPhoto 0 false ∅). by vm_compute. }
  discriminate H'. split_and!.
  - constructor; [by right|constructor].
  - intros [|[|i]] [|[|j]] s t x ?; by intros [=] [=].
  - constructor; [by intros ? [=]|constructor].
  - constructor; [by intros ?? [= <- <-]|constructor].
Qed.

(** C3 (amended): the validator returns [Valid] exactly when every slide
    has 1 or 2 members, no id occurs twice in the whole sequence, every id
    is in the catalog, every single holds a horizontal photo and every
    pair two vertical ones. Otherwise it returns the violation of the
    first slide that has one, the first that applies among: the count
    (with the slide index), per id in order a reuse and then an unknown id
    (with the id), a vertical single, a horizontal in a pair (with the
    slide index). It never raises. *)
Theorem C3_validator (self : SolutionChecker.checker) (slides : list (list Z)) :
  (SolutionChecker.is_valid_solution self slides = Return SolutionChecker.Valid
   ↔ feasible self slides)
  ∧ ∃ v, SolutionChecker.is_valid_solution self slides = Return v
      ∧ (v = SolutionChecker.Valid
         ∨ ∃ pre slide post, slides = pre ++ slide :: post
             ∧ feasible self pre
             ∧ slide_violation self (list_to_set (concat pre)) (length pre) slide v).
Proof.
  split; [apply is_valid_solution_valid|].
  unfold SolutionChecker.is_valid_solution.
  destruct (check_slides_total self ∅ 0 slides) as [v Hv].
  exists v. split; [done|].
  destruct (decide (v = SolutionChecker.Valid)) as [|Hne]; [by left|right].
  destruct (check_slides_violation self _ _ _ _ Hv Hne) as (pre & s & post & -> & Hpre & Hs).
  exists pre, s, post. split; [done|]. split.
  - apply feasible_from_iff in Hpre. tauto.
  - by rewrite (right_id_L ∅ (∪)) in Hs.
Qed.

(** C9: a sequence with an id that is not in the catalog is never valid;
    and where the unknown id is the first offence of its slide (the slides
    before are feasible, the count is 1 or 2, the ids before it in the
    slide are fine, and it is no reuse), the verdict names that id,
    whatever the orientations in the slide. *)
Theorem C9_unknown_id (self : SolutionChecker.checker) (pre : list (list Z))
    (ok : list Z) (x : Z) (r : list Z) (post : list (list Z)) :
  ¬ known self x →
  (∃ v, SolutionChecker.is_valid_solution self (pre ++ (ok ++ x :: r) :: post) = Return v
        ∧ v ≠ SolutionChecker.Valid)
  ∧ (feasible self pre →
     length (ok ++ x :: r) = 1 ∨ length (ok ++ x :: r) = 2 →
     ids_ok self (list_to_set (concat pre)) ok →
     x ∉ ok ++ concat pre →
     SolutionChecker.is_valid_solution self (pre ++ (ok ++ x :: r) :: post)
     = Return (SolutionChecker.InvalidId x)).
Proof.
  intros Hx. split.
  - destruct (check_slides_total self ∅ 0 (pre ++ (ok ++ x :: r) :: post)) as [v Hv].
    exists v. split; [done|]. intros ->.
    apply is_valid_solution_valid in Hv as (_ & _ & Hk & _).
    rewrite Forall_forall in Hk. apply Hx, Hk.
    rewrite concat_app. simpl. set_solver.
  - intros Hpre Hlen Hok Hfresh. unfold SolutionChecker.is_valid_solution.
    rewrite check_slides_app.
    2:{ apply feasible_from_iff. split; [done|set_solver]. }
    rewrite (right_id_L ∅ (∪)). simpl.
    rewrite decide_False by (intros Hl; apply Hl; set_solver).
    rewrite check_ids_app by done. simpl.
    rewrite decide_False by set_solver.
    by rewrite decide_True by done.
Qed.

(** The catalog of the specification's end-to-end example. *)
Definition example_photos : list Photo :=
  [ mkPhoto 0 true {[ txt "a"; txt "b" ]};
    mkPhoto 1 true {[ txt "b"; txt "c" ]};
    mkPhoto 2 false {[ txt "x" ]};
    mkPhoto 3 false {[ txt "y" ]} ].

Definition example_checker : SolutionChecker.checker :=
  SolutionChecker.init example_photos.

Lemma example_known x : (0 ≤ x < 4)%Z → known example_checker x.
Proof.
  intros Hx. unfold known, example_checker, SolutionChecker.init, example_photos.
  simpl. rewrite !dom_insert_L, dom_empty_L. simpl.
  assert (x = 0 ∨ x = 1 ∨ x = 2 ∨ x = 3)%Z as Hx' by lia. set_solver.
Qed.

Lemma example_unknown x : ¬ (0 ≤ x < 4)%Z → ¬ known example_checker x.
Proof.
  intros Hx. unfold known, example_checker, SolutionChecker.init, example_photos.
  simpl. rewrite !dom_insert_L, dom_empty_L. simpl. set_solver by lia.
Qed.

(** C9 on the example catalog: after the slide of photo 0, a slide with
    the unknown id 7. *)
Lemma C9_unknown_id_witness :
  ¬ known example_checker 7
  ∧ SolutionChecker.is_valid_solution example_checker ([[0%Z]] ++ ([] ++ 7%Z :: []) :: [])
    = Return (SolutionChecker.InvalidId 7).
Proof.
  assert (¬ known example_checker 7) as Hx by (apply example_unknown; lia).
  split; [done|].
  apply (C9_unknown_id example_checker [[0%Z]] [] 7 [] [] Hx).
  - split_and!.
    + constructor; [by left|constructor].
    + simpl. apply NoDup_singleton.
    + constructor; [apply example_known; lia|constructor].
    + constructor; [|constructor]. intros ? [= <-]. eexists. by vm_compute.
    + constructor; [|constructor]. by intros ?? [=].
  - by left.
  - split; [constructor|]. by intros ? ?%elem_of_nil.
  - simpl. set_solver.
Defined.

(** ** Sums over lists *)

Lemma sum_list_with_map {A B} (g : A → B) (f : B → nat) (l : list A) :
  sum_list_with f (g <$> l) = sum_list_with (λ x, f (g x)) l.
Proof. induction l as [|x l IH]; simpl; [done|by f_equal]. Qed.

Lemma sum_list_with_ext_in {A} (f g : A → nat) (l : list A) :
  (∀ x, x ∈ l → f x = g x) → sum_list_with f l = sum_list_with g l.
Proof.
  induction l as [|x l IH]; intros H; simpl; [done|].
  rewrite (H x) by left. f_equal. apply IH. intros y Hy. apply H. by right.
Qed.

(** ** The score of a sequence *)

Section aggregator.
Import SolutionChecker.
Variable self : checker.

(** The combined tags of a slide whose ids are in the catalog. *)
Definition slide_tags (slide : list Z) : tagset :=
  ⋃ ((λ x, from_option tags ∅ (photos self !! x)) <$> slide).

(** The sum of [score(unit[i], unit[i+1])] over the adjacent pairs. *)
Definition adjacent_sum (units : list tagset) : nat :=
  sum_list_with (λ i, compute_transition_score (units !!! i) (units !!! S i))
    (seq 0 (length units - 1)).

Lemma adjacent_sum_cons a b r :
  adjacent_sum (a :: b :: r)
  = compute_transition_score a b + adjacent_sum (b :: r).
Proof.
  unfold adjacent_sum. simpl. rewrite Nat.sub_0_r. f_equal.
  by rewrite <-fmap_S_seq, sum_list_with_map.
Qed.

Lemma mapM_tags_known slide :
  Forall (known self) slide →
  mapM (λ photo_id, tags <$> photo_of self photo_id) slide
  = Return ((λ x, from_option tags ∅ (photos self !! x)) <$> slide).
Proof.
  induction 1 as [|x r [p Hp]%known_lookup _ IH]; [done|].
  simpl in *. rewrite IH. unfold photo_of. by rewrite Hp.
Qed.

Lemma get_slide_tags_known slide :
  Forall (known self) slide → get_slide_tags self slide = Return (slide_tags slide).
Proof.
  intros Hk. unfold get_slide_tags. by rewrite mapM_tags_known.
Qed.

Lemma score_loop_known previous_tags total_score slides :
  Forall (known self) (concat slides) →
  score_loop self previous_tags total_score slides
  = Return (total_score + adjacent_sum (previous_tags :: (slide_tags <$> slides))).
Proof.
  revert previous_tags total_score.
  induction slides as [|slide rest IH]; intros prev total Hk; simpl.
  { unfold adjacent_sum. simpl. by rewrite Nat.add_0_r. }
  simpl in Hk. apply Forall_app in Hk as [Hs Hk].
  rewrite get_slide_tags_known by done. simpl.
  rewrite IH by done. by rewrite adjacent_sum_cons, Nat.add_assoc.
Qed.
End aggregator.

(** C6, as stated, fails: on a single slide whose id is not in the
    catalog, [compute_score] raises instead of returning 0. *)
Lemma C6_counterexample :
  SolutionChecker.compute_score example_checker [[9%Z]] = Raise KeyError.
Proof. reflexivity. Qed.

(** C6 (amended): for a sequence whose ids are all in the catalog, the
    total is the sum of the transition scores of the adjacent slides, and
    it is 0 for a sequence of at most one slide. *)
Theorem C6_compute_score (self : SolutionChecker.checker) (slides : list (list Z)) :
  Forall (known self) (concat slides) →
  SolutionChecker.compute_score self slides
  = Return (adjacent_sum (slide_tags self <$> slides))
  ∧ (length slides ≤ 1 → SolutionChecker.compute_score self slides = Return 0).
Proof.
  intros Hk.
  assert (SolutionChecker.compute_score self slides
          = Return (adjacent_sum (slide_tags self <$> slides))) as Heq.
  { destruct slides as [|slide0 rest]; [done|]. simpl in *.
    apply Forall_app in Hk as [Hs Hk].
    rewrite get_slide_tags_known by done. simpl.
    by rewrite score_loop_known by done. }
  split; [done|]. intros Hlen. rewrite Heq.
  destruct slides as [|? [|??]]; simpl in Hlen; [done|done|lia].
Qed.

(** C6 on the example catalog: the two horizontal photos share one tag,
    the pair shares none with them. *)
Lemma C6_compute_score_witness :
  Forall (known example_checker) (concat [[0]; [1]; [2; 3]])%Z
  ∧ SolutionChecker.compute_score example_checker [[0]; [1]; [2; 3]]%Z = Return 1.
Proof.
  assert (Forall (known example_checker) (concat [[0]; [1]; [2; 3]])%Z) as Hk.
  { simpl. repeat (constructor; [apply example_known; lia|]). constructor. }
  split; [done|].
  destruct (C6_compute_score example_checker [[0]; [1]; [2; 3]]%Z Hk) as [-> _].
  by vm_compute.
Defined.

(** ** The pairs of vertical photos *)

Section combinations.
Context {A : Type}.
Implicit Types l : list A.

Lemma elem_of_combinations2 l a b :
  (a, b) ∈ Slideshow.combinations2 l
  ↔ ∃ i j, i < j ∧ l !! i = Some a ∧ l !! j = Some b.
Proof.
  induction l as [|x r IH]; simpl.
  { split; [by intros ?%elem_of_nil|]. by intros (i & j & _ & [=] & _). }
  rewrite elem_of_app, list_elem_of_fmap, IH. split.
  - intros [(y & [= -> ->] & Hy)|(i & j & Hij & Hi & Hj)].
    + apply list_elem_of_lookup in Hy as [j Hj].
      exists 0, (S j). split; [lia|done].
    + exists (S i), (S j). split; [lia|done].
  - intros ([|i] & [|j] & Hij & Hi & Hj); try lia; simpl in *.
    + left. exists b. injection Hi as ->. split; [done|].
      apply list_elem_of_lookup. by exists j.
    + right. exists i, j. split; [lia|done].
Qed.

Lemma NoDup_combinations2 l : NoDup l → NoDup (Slideshow.combinations2 l).
Proof.
  induction 1 as [|x r Hx Hnd IH]; simpl; [constructor|].
  apply NoDup_app. split_and!.
  - apply NoDup_fmap_2; [|done]. by intros ?? [=].
  - intros [a b] (y & [= -> ->] & Hy)%list_elem_of_fmap
      (i & j & _ & Hi & _)%elem_of_combinations2.
    apply Hx, list_elem_of_lookup. by exists i.
  - done.
Qed.

(** Over a list without repetition, every unordered pair of distinct
    members comes once, in one of its two orders. *)
Lemma combinations2_unordered l a b :
  NoDup l → a ∈ l → b ∈ l → a ≠ b →
  ((a, b) ∈ Slideshow.combinations2 l ∧ (b, a) ∉ Slideshow.combinations2 l)
  ∨ ((b, a) ∈ Slideshow.combinations2 l ∧ (a, b) ∉ Slideshow.combinations2 l).
Proof.
  intros Hnd [i Hi]%list_elem_of_lookup [j Hj]%list_elem_of_lookup Hne.
  assert (i ≠ j) as Hij by (intros ->; congruence).
  rewrite !elem_of_combinations2.
  destruct (decide (i < j)) as [Hlt|Hge]; [left|right].
  - split; [by exists i, j|]. intros (j' & i' & Hlt' & Hj' & Hi').
    pose proof (NoDup_lookup _ _ _ _ Hnd Hi Hi').
    pose proof (NoDup_lookup _ _ _ _ Hnd Hj Hj'). lia.
  - split; [exists j, i; split; [lia|done]|]. intros (i' & j' & Hlt' & Hi' & Hj').
    pose proof (NoDup_lookup _ _ _ _ Hnd Hi Hi').
    pose proof (NoDup_lookup _ _ _ _ Hnd Hj Hj'). lia.
Qed.

Lemma combinations2_distinct l a b :
  NoDup l → (a, b) ∈ Slideshow.combinations2 l → a ≠ b ∧ a ∈ l ∧ b ∈ l.
Proof.
  intros Hnd (i & j & Hij & Hi & Hj)%elem_of_combinations2. split_and!.
  - intros ->. pose proof (NoDup_lookup _ _ _ _ Hnd Hi Hj). lia.
  - apply list_elem_of_lookup. by exists i.
  - apply list_elem_of_lookup. by exists j.
Qed.
End combinations.

(** ** Catalogs that number their photos in order *)

(** The identities are 0, 1, ... in the order of the list, as the two
    readers assign them. *)
Definition indexed (photos : list Photo) : Prop :=
  id <$> photos = Z.of_nat <$> seq 0 (length photos).

Lemma indexed_lookup photos k p :
  indexed photos → photos !! k = Some p → id p = Z.of_nat k.
Proof.
  intros Hidx Hk.
  assert ((id <$> photos) !! k = Some (id p)) as H by (by rewrite list_lookup_fmap, Hk).
  rewrite Hidx, list_lookup_fmap in H.
  destruct (seq 0 (length photos) !! k) as [k'|] eqn:Hs; [|done].
  apply lookup_seq in Hs as [-> _]. by injection H as <-.
Qed.

Lemma indexed_getitem photos p :
  indexed photos → p ∈ photos → Py.getitem photos (id p) = Some p.
Proof.
  intros Hidx [k Hk]%list_elem_of_lookup.
  rewrite (indexed_lookup _ _ _ Hidx Hk). unfold Py.getitem.
  rewrite (proj2 (Z.leb_le _ _)) by lia. by rewrite Nat2Z.id.
Qed.

Lemma indexed_NoDup photos : indexed photos → NoDup (id <$> photos).
Proof.
  intros ->. apply NoDup_fmap_2; [apply _|apply NoDup_seq].
Qed.

Lemma indexed_id_inj photos p q :
  indexed photos → p ∈ photos → q ∈ photos → id p = id q → p = q.
Proof.
  intros Hidx Hp Hq Heq.
  pose proof (indexed_getitem _ _ Hidx Hp). pose proof (indexed_getitem _ _ Hidx Hq).
  congruence.
Qed.

(** ** Loops that do not raise *)

Lemma bind_Return {A B} (a : A) (k : A → result B) : (Return a ≫= k) = k a.
Proof. done. Qed.

Lemma for_each_cons {A S} (x : A) (l : list A) (body : A → S → result S) (s : S) :
  for_each (x :: l) body s = (body x s ≫= for_each l body).
Proof. done. Qed.

Lemma for_each_total {A S} (l : list A) (body : A → S → result S) (s : S) :
  (∀ x s, x ∈ l → ∃ s', body x s = Return s') →
  ∃ s', for_each l body s = Return s'.
Proof.
  revert s. induction l as [|x l IH]; intros s H; simpl; [by eexists|].
  destruct (H x s) as [s' ->]; [left|]. simpl.
  apply IH. intros y t Hy. apply H. by right.
Qed.

(** ** The optimizer's preparation *)

Section init.
Variable photos : list Photo.
Hypothesis Hidx : indexed photos.

Definition tags_of (i : Z) : tagset :=
  from_option tags ∅ (Py.getitem photos i).

Definition is_photo_id (i : Z) : Prop := i ∈ id <$> photos.

Lemma tags_at_id i :
  is_photo_id i → Slideshow.tags_at photos i = Return (tags_of i).
Proof.
  intros (p & -> & Hp)%list_elem_of_fmap. unfold Slideshow.tags_at, tags_of.
  by rewrite (indexed_getitem _ _ Hidx Hp).
Qed.

Lemma tags_of_id p : p ∈ photos → tags_of (id p) = tags p.
Proof. intros Hp. unfold tags_of. by rewrite (indexed_getitem _ _ Hidx Hp). Qed.

Lemma pair_body_id i j st :
  is_photo_id i → is_photo_id j →
  Slideshow.pair_body photos (i, j) st
  = Return (st.1 ++ [(i, j)], <[(i, j) := tags_of i ∪ tags_of j]> st.2).
Proof.
  intros Hi Hj. unfold Slideshow.pair_body.
  by rewrite (tags_at_id i Hi), (tags_at_id j Hj).
Qed.

Lemma pair_loop_spec (c acc : list (Z * Z)) (m : gmap (Z * Z) tagset) :
  (∀ a b, (a, b) ∈ c → is_photo_id a ∧ is_photo_id b) →
  ∃ m', for_each c (Slideshow.pair_body photos) (acc, m) = Return (acc ++ c, m')
    ∧ ∀ k, m' !! k = if decide (k ∈ c) then Some (tags_of k.1 ∪ tags_of k.2) else m !! k.
Proof.
  revert acc m. induction c as [|[i j] c IH]; intros acc m Hc.
  { exists m. rewrite app_nil_r. split; [done|]. intros k.
    by rewrite decide_False by (by intros ?%elem_of_nil). }
  destruct (Hc i j) as [Hi Hj]; [left|].
  rewrite for_each_cons, pair_body_id, bind_Return by done. cbn [fst snd].
  destruct (IH (acc ++ [(i, j)]) (<[(i, j) := tags_of i ∪ tags_of j]> m))
    as (m' & -> & Hm').
  { intros a b Hab. apply Hc. by right. }
  exists m'. rewrite <-app_assoc. split; [done|]. intros k. rewrite Hm'.
  cbn [fst snd].
  destruct (decide (k ∈ c)) as [Hk|Hk].
  - rewrite decide_True; [done|by right].
  - destruct (decide (k = (i, j))) as [->|Hne].
    + rewrite decide_True by left. by rewrite lookup_insert_eq.
    + rewrite decide_False by (by intros [?|?]%elem_of_cons).
      by rewrite lookup_insert_ne.
Qed.

Definition horizontal_ids : list Z := id <$> filter (λ p, is_horizontal p = true) photos.
Definition vertical_ids : list Z := id <$> filter (λ p, is_horizontal p = false) photos.

Lemma horizontal_ids_photo i : i ∈ horizontal_ids → is_photo_id i.
Proof.
  intros (p & -> & [_ Hp]%list_elem_of_filter)%list_elem_of_fmap.
  apply list_elem_of_fmap. by exists p.
Qed.

Lemma vertical_ids_photo i : i ∈ vertical_ids → is_photo_id i.
Proof.
  intros (p & -> & [_ Hp]%list_elem_of_filter)%list_elem_of_fmap.
  apply list_elem_of_fmap. by exists p.
Qed.

Lemma NoDup_vertical_ids : NoDup vertical_ids.
Proof.
  eapply sublist_NoDup; [apply (indexed_NoDup _ Hidx)|].
  apply fmap_sublist, sublist_filter.
Qed.

Lemma NoDup_horizontal_ids : NoDup horizontal_ids.
Proof.
  eapply sublist_NoDup; [apply (indexed_NoDup _ Hidx)|].
  apply fmap_sublist, sublist_filter.
Qed.

Lemma horizontal_not_vertical i : i ∈ horizontal_ids → i ∈ vertical_ids → False.
Proof.
  intros (p & -> & [Hh Hp]%list_elem_of_filter)%list_elem_of_fmap
         (q & Hpq & [Hv Hq]%list_elem_of_filter)%list_elem_of_fmap.
  assert (p = q) as -> by by eapply indexed_id_inj. congruence.
Qed.

Lemma scores_hh_total ts :
  ∃ ts', Slideshow.scores_hh photos horizontal_ids ts = Return ts'.
Proof.
  apply for_each_total. intros i s Hi. apply for_each_total. intros j s' Hj.
  destruct (decide (i ≠ j)); [|by eexists].
  rewrite !tags_at_id by by apply horizontal_ids_photo. by eexists.
Qed.

Lemma scores_hp_total pairs vpt ts :
  (∀ pair, pair ∈ pairs → ∃ t, Slideshow.pair_tags vpt pair = Return t) →
  ∃ ts', Slideshow.scores_hp photos horizontal_ids pairs vpt ts = Return ts'.
Proof.
  intros Hpt. apply for_each_total. intros i s Hi.
  apply for_each_total. intros pair s' Hp.
  rewrite tags_at_id by by apply horizontal_ids_photo.
  destruct (Hpt pair Hp) as [t ->]. by eexists.
Qed.

Lemma scores_pp_total pairs vpt ts :
  (∀ pair, pair ∈ pairs → ∃ t, Slideshow.pair_tags vpt pair = Return t) →
  ∃ ts', Slideshow.scores_pp pairs vpt ts = Return ts'.
Proof.
  intros Hpt. apply for_each_total. intros p1 s Hp1.
  apply for_each_total. intros p2 s' Hp2.
  destruct (decide (p1 ≠ p2)); [|by eexists].
  destruct (Hpt p1 Hp1) as [t1 ->]. destruct (Hpt p2 Hp2) as [t2 ->]. by eexists.
Qed.

(** [__init__] does not raise on such a catalog, and this is what it
    leaves in the attributes about the pairs. *)
Lemma init_spec :
  ∃ self, Slideshow.init photos = Return self
    ∧ Slideshow.photos self = photos
    ∧ Slideshow.n_photos self = length photos
    ∧ Slideshow.horizontal_photos self = horizontal_ids
    ∧ Slideshow.vertical_photos self = vertical_ids
    ∧ Slideshow.vertical_pairs self = Slideshow.combinations2 vertical_ids
    ∧ ∀ k, Slideshow.vertical_pair_tags self !! k
           = if decide (k ∈ Slideshow.combinations2 vertical_ids)
             then Some (tags_of k.1 ∪ tags_of k.2) else None.
Proof.
  unfold Slideshow.init. fold horizontal_ids vertical_ids.
  destruct (pair_loop_spec (Slideshow.combinations2 vertical_ids) [] ∅)
    as (vpt & -> & Hvpt).
  { intros a b (_ & ? & ?)%(combinations2_distinct _ _ _ NoDup_vertical_ids).
    split; by apply vertical_ids_photo. }
  rewrite bind_Return. cbn [app].
  assert (∀ pair, pair ∈ Slideshow.combinations2 vertical_ids →
          ∃ t, Slideshow.pair_tags vpt pair = Return t) as Hpt.
  { intros pair Hp. unfold Slideshow.pair_tags. rewrite Hvpt, decide_True by done.
    by eexists. }
  destruct (scores_hh_total ∅) as [ts1 ->]. rewrite bind_Return.
  destruct (scores_hp_total _ _ ts1 Hpt) as [ts2 ->]. rewrite bind_Return.
  destruct (scores_pp_total _ _ ts2 Hpt) as [ts3 ->]. rewrite bind_Return.
  eexists. split; [done|]. cbn. by split_and!.
Qed.
End init.

(** C8: on a catalog numbered in order, the pairs are the combinations of
    the vertical ids: no pair repeats, no pair holds an id twice, every
    two distinct vertical ids form a pair in exactly one of the two
    orders, and the tags stored for a pair are the union of the tags of
    its two photos. *)
Theorem C8_vertical_pairs (photos : list Photo) :
  indexed photos →
  ∃ self, Slideshow.init photos = Return self
    ∧ Slideshow.vertical_photos self = vertical_ids photos
    ∧ NoDup (Slideshow.vertical_pairs self)
    ∧ (∀ a b, (a, b) ∈ Slideshow.vertical_pairs self →
         a ≠ b ∧ a ∈ vertical_ids photos ∧ b ∈ vertical_ids photos)
    ∧ (∀ a b, a ∈ vertical_ids photos → b ∈ vertical_ids photos → a ≠ b →
         ((a, b) ∈ Slideshow.vertical_pairs self ∧ (b, a) ∉ Slideshow.vertical_pairs self)
         ∨ ((b, a) ∈ Slideshow.vertical_pairs self ∧ (a, b) ∉ Slideshow.vertical_pairs self))
    ∧ (∀ pa pb, pa ∈ photos → pb ∈ photos →
         (id pa, id pb) ∈ Slideshow.vertical_pairs self →
         Slideshow.vertical_pair_tags self !! (id pa, id pb) = Some (tags pa ∪ tags pb))
    ∧ (∀ k, k ∉ Slideshow.vertical_pairs self → Slideshow.vertical_pair_tags self !! k = None).
Proof.
  intros Hidx.
  destruct (init_spec photos Hidx) as (self & Hinit & _ & _ & _ & Hv & Hp & Ht).
  exists self. rewrite Hp. split_and!; try done.
  - apply NoDup_combinations2, NoDup_vertical_ids, Hidx.
  - intros a b. apply combinations2_distinct, NoDup_vertical_ids, Hidx.
  - intros a b. apply combinations2_unordered, NoDup_vertical_ids, Hidx.
  - intros pa pb Ha Hb Hin. rewrite Ht, decide_True by done. simpl.
    by rewrite !tags_of_id.
  - intros k Hk. by rewrite Ht, decide_False.
Qed.

Lemma example_indexed : indexed example_photos.
Proof. reflexivity. Qed.

(** C8 on the example catalog: one pair, of photos 2 and 3. *)
Lemma C8_vertical_pairs_witness :
  indexed example_photos
  ∧ ∃ self, Slideshow.init example_photos = Return self
      ∧ Slideshow.vertical_pairs self = [(2, 3)]%Z
      ∧ Slideshow.vertical_pair_tags self !! (2, 3)%Z = Some {[ txt "x"; txt "y" ]}.
Proof.
  split; [apply example_indexed|].
  destruct (C8_vertical_pairs example_photos example_indexed)
    as (self & Hinit & _ & _ & _ & _ & Ht & _).
  exists self. split; [done|].
  assert (Slideshow.vertical_pairs self = [(2, 3)]%Z) as Hp.
  { vm_compute in Hinit. by injection Hinit as <-. }
  split; [done|].
  rewrite (Ht (mkPhoto 2 false {[ txt "x" ]}) (mkPhoto 3 false {[ txt "y" ]})).
  - done.
  - set_solver.
  - set_solver.
  - rewrite Hp. simpl. set_solver.
Defined.

(** ** Text: white space, lines and tokens *)

Section text.
Implicit Types (s t : str) (c : ascii).

Definition nonspace c : Prop := Py.isspace c = false.

Lemma lstrip_nonspace c s : nonspace c → Py.lstrip (c :: s) = c :: s.
Proof. intros H. simpl. by rewrite H. Qed.

Lemma lstrip_spec s :
  ∃ w, s = w ++ Py.lstrip s ∧ Forall (λ c, Py.isspace c = true) w.
Proof.
  induction s as [|c s (w & Hs & Hw)]; simpl.
  { by exists []. }
  destruct (Py.isspace c) eqn:Hc.
  - exists (c :: w). split; [by rewrite <-app_comm_cons, <-Hs|by constructor].
  - by exists [].
Qed.

Lemma lstrip_fixed s :
  Py.lstrip s = s ↔ match s with [] => True | c :: _ => nonspace c end.
Proof.
  destruct s as [|c s]; simpl; [done|]. unfold nonspace.
  destruct (Py.isspace c) eqn:Hc; [|done]. split; [|done].
  intros H. destruct (lstrip_spec s) as (w & Hs & _).
  apply (f_equal length) in H. rewrite Hs in H at 2.
  simpl in H. rewrite length_app in H. lia.
Qed.

Lemma lstrip_idemp s : Py.lstrip (Py.lstrip s) = Py.lstrip s.
Proof.
  induction s as [|c s IH]; simpl; [done|].
  destruct (Py.isspace c) eqn:Hc; [done|]. simpl. by rewrite Hc.
Qed.

Lemma lstrip_spaces w s :
  Forall (λ c, Py.isspace c = true) w → Py.lstrip (w ++ s) = Py.lstrip s.
Proof. induction 1 as [|c w Hc _ IH]; simpl; [done|]. by rewrite Hc. Qed.

(** A text that neither starts nor ends with white space. *)
Definition trimmed s : Prop :=
  Py.lstrip s = s ∧ Py.lstrip (reverse s) = reverse s.

Lemma strip_trimmed s : trimmed s → Py.strip s = s.
Proof. intros [H1 H2]. unfold Py.strip. by rewrite H1, H2, reverse_involutive. Qed.

Lemma trimmed_strip s : trimmed (Py.strip s).
Proof.
  unfold trimmed, Py.strip. rewrite reverse_involutive, lstrip_idemp.
  split; [|done].
  pose proof (lstrip_idemp s) as Hu. set (u := Py.lstrip s) in *.
  destruct (lstrip_spec (reverse u)) as (w & Hv & Hw).
  set (v := Py.lstrip (reverse u)) in *.
  assert (u = reverse v ++ reverse w) as Hu'.
  { by rewrite <-reverse_app, <-Hv, reverse_involutive. }
  apply lstrip_fixed. apply lstrip_fixed in Hu.
  destruct (reverse v) as [|c r]; [done|]. by rewrite Hu' in Hu.
Qed.

Lemma strip_idemp s : Py.strip (Py.strip s) = Py.strip s.
Proof. apply strip_trimmed, trimmed_strip. Qed.

Lemma trimmed_nonspace s : Forall nonspace s → trimmed s.
Proof.
  intros H. split; apply lstrip_fixed.
  - by destruct H.
  - apply Forall_reverse in H. by destruct H.
Qed.

(** [int] strips by itself. *)
Lemma int_strip s : Py.int (Py.strip s) = Py.int s.
Proof. unfold Py.int. by rewrite strip_idemp. Qed.

Lemma split_go_spaces cur w :
  Forall (λ c, Py.isspace c = true) w →
  Py.split_go cur w = Py.split_go cur [].
Proof.
  intros H. revert cur. induction H as [|c w Hc _ IH]; intros cur; [done|].
  simpl. rewrite Hc. destruct cur; rewrite IH; done.
Qed.

Lemma split_go_app_spaces cur s w :
  Forall (λ c, Py.isspace c = true) w →
  Py.split_go cur (s ++ w) = Py.split_go cur s.
Proof.
  intros H. revert cur. induction s as [|c s IH]; intros cur.
  - by apply split_go_spaces.
  - simpl. destruct (Py.isspace c); [destruct cur|]; by rewrite ?IH.
Qed.

Lemma split_lstrip s : Py.split (Py.lstrip s) = Py.split s.
Proof.
  unfold Py.split. induction s as [|c s IH]; simpl; [done|].
  destruct (Py.isspace c) eqn:Hc; [done|]. simpl. by rewrite Hc.
Qed.

(** [split] does not see the white space that [strip] removes. *)
Lemma split_strip s : Py.split (Py.strip s) = Py.split s.
Proof.
  rewrite <-(split_lstrip s). unfold Py.strip.
  destruct (lstrip_spec (reverse (Py.lstrip s))) as (w & Hv & Hw).
  set (v := Py.lstrip (reverse (Py.lstrip s))) in *.
  assert (Py.lstrip s = reverse v ++ reverse w) as ->.
  { by rewrite <-reverse_app, <-Hv, reverse_involutive. }
  unfold Py.split. by rewrite split_go_app_spaces by by apply Forall_reverse.
Qed.

Lemma split_go_token t cur s :
  Forall nonspace t → Py.split_go cur (t ++ s) = Py.split_go (reverse t ++ cur) s.
Proof.
  intros H. revert cur. induction H as [|c t Hc _ IH]; intros cur; [done|].
  simpl. rewrite Hc, IH. by rewrite reverse_cons, <-app_assoc.
Qed.

Lemma readline_cons c f :
  Py.readline (c :: f)
  = if decide (c = Py.newline) then ([c], f)
    else let '(l, r') := Py.readline f in (c :: l, r').
Proof. done. Qed.

Lemma readline_line l f :
  Py.newline ∉ l → Py.readline (l ++ Py.newline :: f) = (l ++ [Py.newline], f).
Proof.
  induction l as [|c l IH]; intros Hl.
  { rewrite app_nil_l, readline_cons. by destruct (decide _). }
  rewrite <-!app_comm_cons, readline_cons.
  destruct (decide (c = Py.newline)) as [->|_]; [set_solver|].
  rewrite IH by set_solver. done.
Qed.
End text.

(** ** Text: integers *)

Section numbers.
Implicit Types (s : str) (c : ascii).

(** The characters of a printed integer. *)
Definition numeric c : Prop := is_Some (Py.digit c) ∨ c = Py.minus.

Lemma digit_nonspace c : is_Some (Py.digit c) → nonspace c.
Proof. destruct c as [[] [] [] [] [] [] [] []]; by intros [? [=]]. Qed.

Lemma digit_plain c :
  is_Some (Py.digit c) →
  c ≠ Py.underscore ∧ c ≠ Py.minus ∧ c ≠ Py.plus ∧ c ≠ Py.newline.
Proof. destruct c as [[] [] [] [] [] [] [] []]; by intros [? [=]]. Qed.

Lemma numeric_nonspace c : numeric c → nonspace c.
Proof. intros [?| ->]; [by apply digit_nonspace|done]. Qed.

Lemma numeric_not_newline c : numeric c → c ≠ Py.newline.
Proof. intros [H| ->]; [by apply digit_plain|done]. Qed.

Lemma pretty_N_char_digit (x : N) :
  (x < 10)%N → Py.digit (pretty_N_char x) = Some (Z.of_N x).
Proof.
  intros H.
  assert (x = 0 ∨ x = 1 ∨ x = 2 ∨ x = 3 ∨ x = 4 ∨ x = 5 ∨ x = 6 ∨ x = 7
          ∨ x = 8 ∨ x = 9)%N as Hx by lia.
  by repeat (destruct Hx as [-> | Hx]; [done|]); subst.
Qed.

Lemma digits_go_digit acc c s d :
  Py.digit c = Some d → Py.digits_go acc (c :: s) = Py.digits_go (10 * acc + d) s.
Proof.
  intros Hd. destruct (digit_plain c) as (Hu & _); [by eexists|].
  cbn [Py.digits_go]. rewrite decide_False by done. by rewrite Hd.
Qed.

Lemma digits_go_pretty (x : N) (t : string) :
  Py.digits_go 0 (txt (pretty_N_go x t)) = Py.digits_go (Z.of_N x) (txt t).
Proof.
  revert t. induction (N.lt_wf_0 x) as [x _ IH]; intros t.
  destruct (decide (x = 0)%N) as [->|Hx]; [done|].
  rewrite pretty_N_go_step by lia. rewrite IH by (apply N.div_lt; lia).
  cbn [String.list_ascii_of_string].
  rewrite (digits_go_digit _ _ _ (Z.of_N (x `mod` 10))).
  2:{ apply pretty_N_char_digit, N.mod_lt. lia. }
  f_equal. rewrite N2Z.inj_div, N2Z.inj_mod. simpl Z.of_N.
  pose proof (Z.div_mod (Z.of_N x) 10). lia.
Qed.

Lemma pretty_N_go_numeric (x : N) (t : string) :
  Forall (λ c, is_Some (Py.digit c)) (txt t) →
  Forall (λ c, is_Some (Py.digit c)) (txt (pretty_N_go x t)).
Proof.
  revert t. induction (N.lt_wf_0 x) as [x _ IH]; intros t Ht.
  destruct (decide (x = 0)%N) as [->|Hx]; [done|].
  rewrite pretty_N_go_step by lia. apply IH; [apply N.div_lt; lia|].
  cbn [String.list_ascii_of_string]. constructor; [|done].
  rewrite pretty_N_char_digit; [by eexists|]. apply N.mod_lt. lia.
Qed.

(** The digits of a positive number, as [str] prints them. *)
Lemma pretty_pos_digits (p : positive) :
  ∃ c r, txt (pretty (Npos p)) = c :: r
    ∧ Forall (λ c, is_Some (Py.digit c)) (c :: r)
    ∧ Py.digits (c :: r) = Some (Zpos p).
Proof.
  assert (pretty (Npos p) = pretty_N_go (Npos p) "") as ->.
  { unfold pretty, pretty_N. by rewrite decide_False. }
  pose proof (digits_go_pretty (Npos p) "") as Hd.
  pose proof (pretty_N_go_numeric (Npos p) "" (Forall_nil_2 _)) as Hn.
  destruct (txt (pretty_N_go (Npos p) "")) as [|c r]; [done|].
  exists c, r. split; [done|]. split; [done|].
  apply Forall_cons in Hn as [[d Hc] _].
  rewrite (digits_go_digit _ _ _ d Hc) in Hd.
  replace (10 * 0 + d)%Z with d in Hd by lia.
  unfold Py.digits. rewrite Hc. simpl. by rewrite Hd.
Qed.

Lemma str_of_numeric (z : Z) : Forall numeric (Py.str_of z).
Proof.
  unfold Py.str_of. destruct z as [|p|p].
  - constructor; [left; by eexists|constructor].
  - destruct (pretty_pos_digits p) as (c & r & Hp & Hn & _).
    change (pretty (Zpos p)) with (pretty (Npos p)). rewrite Hp.
    eapply Forall_impl; [done|]. by left.
  - destruct (pretty_pos_digits p) as (c & r & Hp & Hn & _).
    change (txt (pretty (Zneg p))) with (Py.minus :: txt (pretty (Npos p))).
    rewrite Hp. constructor; [by right|].
    eapply Forall_impl; [done|]. by left.
Qed.

Lemma str_of_nonempty (z : Z) : Py.str_of z ≠ [].
Proof.
  unfold Py.str_of. destruct z as [|p|p]; [done| |done].
  destruct (pretty_pos_digits p) as (c & r & Hp & _).
  change (pretty (Zpos p)) with (pretty (Npos p)). by rewrite Hp.
Qed.

Lemma int_trimmed c r :
  trimmed (c :: r) →
  Py.int (c :: r)
  = if decide (c = Py.minus) then Z.opp <$> Py.digits r
    else if decide (c = Py.plus) then Py.digits r
    else Py.digits (c :: r).
Proof. intros H. unfold Py.int. by rewrite strip_trimmed. Qed.

(** [int(str(z)) == z] *)
Lemma int_str_of (z : Z) : Py.int (Py.str_of z) = Some z.
Proof.
  assert (trimmed (Py.str_of z)) as Ht.
  { apply trimmed_nonspace. eapply Forall_impl; [apply str_of_numeric|].
    apply numeric_nonspace. }
  unfold Py.str_of in *. destruct z as [|p|p]; [done| |].
  - destruct (pretty_pos_digits p) as (c & r & Hp & Hn & Hd).
    change (pretty (Zpos p)) with (pretty (Npos p)) in *. rewrite Hp in *.
    apply Forall_cons in Hn as [Hc _].
    destruct (digit_plain c Hc) as (_ & ? & ? & _).
    rewrite int_trimmed by done. by rewrite !decide_False by done.
  - destruct (pretty_pos_digits p) as (c & r & Hp & Hn & Hd).
    change (txt (pretty (Zneg p))) with (Py.minus :: txt (pretty (Npos p))) in *.
    rewrite int_trimmed by done. rewrite decide_True by done. by rewrite Hp, Hd.
Qed.

Lemma mapM_int_str_of (l : list Z) : mapM Py.int (Py.str_of <$> l) = Some l.
Proof.
  induction l as [|z l IH]; [done|].
  cbn [fmap list_fmap mapM]. by rewrite int_str_of, IH.
Qed.
End numbers.

(** ** The solution file: written, then read *)

Section roundtrip.
Implicit Types (s t : str) (toks : list str).

Definition blank : str := [" "%char].

Lemma split_go_flush cur c s :
  cur ≠ [] → Py.isspace c = true →
  Py.split_go cur (c :: s) = reverse cur :: Py.split_go [] s.
Proof. intros Hcur Hc. simpl. rewrite Hc. by destruct cur. Qed.

Lemma split_go_word t c s :
  t ≠ [] → Forall nonspace t → Py.isspace c = true →
  Py.split_go [] (t ++ c :: s) = t :: Py.split_go [] s.
Proof.
  intros Ht Hn Hc. rewrite split_go_token by done. rewrite app_nil_r.
  rewrite split_go_flush; [by rewrite reverse_involutive| |done].
  intros Hr. apply Ht. by rewrite <-(reverse_involutive t), Hr.
Qed.

(** The tokens of a line that was joined with blanks. *)
Lemma split_join_line toks :
  Forall (λ t, t ≠ [] ∧ Forall nonspace t) toks →
  Py.split (Py.join blank toks ++ [Py.newline]) = toks.
Proof.
  unfold Py.split. induction 1 as [|t toks [Ht Hn] Htoks IH]; [done|].
  destruct toks as [|t' toks].
  - cbn [Py.join]. by rewrite split_go_word.
  - change (Py.join blank (t :: t' :: toks))
      with (t ++ blank ++ Py.join blank (t' :: toks)).
    rewrite <-!app_assoc. unfold blank at 1. cbn [app].
    rewrite split_go_word by done. by rewrite IH.
Qed.

Lemma join_no_newline toks :
  Forall (Forall numeric) toks → Py.newline ∉ Py.join blank toks.
Proof.
  induction 1 as [|t toks Ht Htoks IH]; [by intros ?%elem_of_nil|].
  assert (Py.newline ∉ t) as Hnt.
  { intros Hin. rewrite Forall_forall in Ht. by apply (numeric_not_newline _ (Ht _ Hin)). }
  destruct toks as [|t' toks]; [done|].
  change (Py.join blank (t :: t' :: toks))
    with (t ++ blank ++ Py.join blank (t' :: toks)).
  rewrite !not_elem_of_app. split; [done|]. split; [|done].
  unfold blank. by intros [=]%list_elem_of_singleton.
Qed.

Definition slide_line (slide : list Z) : str :=
  Py.join blank (Py.str_of <$> slide) ++ [Py.newline].

Lemma slide_line_tokens (slide : list Z) :
  Py.split (Py.strip (slide_line slide)) = Py.str_of <$> slide.
Proof.
  rewrite split_strip. apply split_join_line, Forall_fmap, Forall_forall.
  intros z _. split; [apply str_of_nonempty|].
  eapply Forall_impl; [apply str_of_numeric|]. apply numeric_nonspace.
Qed.

Lemma readline_slide_line (slide : list Z) f :
  Py.readline (slide_line slide ++ f) = (slide_line slide, f).
Proof.
  unfold slide_line. rewrite <-app_assoc. apply readline_line, join_no_newline.
  apply Forall_fmap, Forall_forall. intros z _. apply str_of_numeric.
Qed.

Lemma read_slides_written (solution : list (list Z)) :
  Forall (λ slide, length slide = 1 ∨ length slide = 2) solution →
  SolutionChecker.read_slides (length solution) (solution ≫= slide_line)
  = Return solution.
Proof.
  induction 1 as [|slide solution Hlen _ IH]; [done|].
  cbn [length SolutionChecker.read_slides mbind list_bind].
  rewrite readline_slide_line, slide_line_tokens, length_fmap.
  rewrite decide_True by set_solver.
  rewrite mapM_int_str_of. cbn [or_raise]. rewrite bind_Return.
  change (foldr _ _ _) with (solution ≫= slide_line). by rewrite IH.
Qed.
Lemma strip_line s : Forall nonspace s → Py.strip (s ++ [Py.newline]) = s.
Proof.
  intros Hs. pose proof (trimmed_nonspace s Hs) as [H1 H2].
  unfold Py.strip. destruct s as [|c s]; [done|].
  assert (Py.lstrip ((c :: s) ++ [Py.newline]) = (c :: s) ++ [Py.newline]) as ->.
  { apply lstrip_fixed. by apply Forall_cons in Hs as [? _]. }
  rewrite reverse_app. change (reverse [Py.newline]) with [Py.newline].
  change ([Py.newline] ++ reverse (c :: s)) with (Py.newline :: reverse (c :: s)).
  change (Py.lstrip (Py.newline :: reverse (c :: s)))
    with (Py.lstrip (reverse (c :: s))).
  by rewrite H2, reverse_involutive.
Qed.

Lemma int_line s : Forall nonspace s → Py.int (s ++ [Py.newline]) = Py.int s.
Proof.
  intros Hs. unfold Py.int.
  by rewrite strip_line, (strip_trimmed s) by by try apply trimmed_nonspace.
Qed.
End roundtrip.

(** C7: a sequence whose slides hold 1 or 2 ids each, written as [main]
    writes it, is read back by [read_solution_file] as the same list of
    slides; and [main] writes it whenever it is not empty. *)
Theorem C7_roundtrip (solution : list (list Z)) :
  Forall (λ slide, length slide = 1 ∨ length slide = 2) solution →
  SolutionChecker.read_solution_file (Slideshow.write_solution solution) = Return solution
  ∧ (solution ≠ [] →
     Slideshow.main_output (Some solution) = Some (Slideshow.write_solution solution)).
Proof.
  intros Hlen. split; [|by destruct solution].
  unfold SolutionChecker.read_solution_file, Slideshow.write_solution.
  assert (Forall numeric (Py.str_of (Z.of_nat (length solution)))) as Hn
    by apply str_of_numeric.
  change ([Py.newline] ++ ?r) with (Py.newline :: r).
  rewrite readline_line.
  2:{ intros Hin. rewrite Forall_forall in Hn.
      by apply (numeric_not_newline _ (Hn _ Hin)). }
  rewrite int_strip, int_line, int_str_of.
  2:{ eapply Forall_impl; [done|]. apply numeric_nonspace. }
  cbn [or_raise]. rewrite bind_Return, Nat2Z.id.
  by apply read_slides_written.
Qed.

(** C7 on a sequence of three slides. *)
Lemma C7_roundtrip_witness :
  Forall (λ slide, length slide = 1 ∨ length slide = 2) [[0]; [2; 3]; [1]]%Z
  ∧ SolutionChecker.read_solution_file (Slideshow.write_solution [[0]; [2; 3]; [1]]%Z)
    = Return [[0]; [2; 3]; [1]]%Z.
Proof.
  assert (Forall (λ slide : list Z, length slide = 1 ∨ length slide = 2)
            [[0]; [2; 3]; [1]]%Z) as H.
  { constructor; [by left|]. constructor; [by right|].
    constructor; [by left|constructor]. }
  split; [done|]. by destruct (C7_roundtrip _ H) as [-> _].
Defined.

(** ** The two catalog readers *)

Section readers.
Implicit Types (line : list str) (f : str) (i : Z).

(** The next [k] lines of a file, each as its tokens; past the end of the
    file a line has none. *)
Fixpoint lines_of (k : nat) f : list (list str) :=
  match k with
  | O => []
  | S k' => let '(l, f') := Py.readline f in Py.split (Py.strip l) :: lines_of k' f'
  end.

(** What the body of each reader's loop makes of one line. *)
Definition optimizer_record i line : result Photo :=
  t0 ← or_raise IndexError (Py.getitem line 0);
  t1 ← or_raise IndexError (Py.getitem line 1);
  n_tags ← or_raise ValueError (Py.int t1);
  Return (mkPhoto i (bool_decide (t0 = txt "H"))
            (list_to_set (Py.slice line 2 (2 + n_tags)))).

Definition checker_record i line : result Photo :=
  t0 ← or_raise IndexError (Py.getitem line 0);
  Return (mkPhoto i (bool_decide (t0 = txt "H")) (list_to_set (drop 2 line))).

Fixpoint records_from (parse : Z → list str → result Photo) i (ls : list (list str))
    : result (list Photo) :=
  match ls with
  | [] => Return []
  | line :: r =>
      p ← parse i line; rest ← records_from parse (i + 1) r; Return (p :: rest)
  end.

Lemma getitem_0 {A} (x : A) (l : list A) : Py.getitem (x :: l) 0 = Some x.
Proof. done. Qed.

Lemma getitem_1 {A} (x y : A) (l : list A) : Py.getitem (x :: y :: l) 1 = Some y.
Proof. done. Qed.

Lemma optimizer_read_records k i f :
  Slideshow.read_records k i f = records_from optimizer_record i (lines_of k f).
Proof.
  revert i f. induction k as [|k IH]; intros i f; [done|].
  cbn [Slideshow.read_records lines_of]. destruct (Py.readline f) as [l f'].
  cbn [records_from]. unfold optimizer_record. rewrite <-IH.
  destruct (Py.split (Py.strip l)) as [|t0 [|t1 rest]]; try reflexivity.
  rewrite getitem_0, getitem_1. cbn [or_raise]. rewrite !bind_Return.
  destruct (Py.int t1); reflexivity.
Qed.

Lemma checker_read_records k i f :
  SolutionChecker.read_records k i f = records_from checker_record i (lines_of k f).
Proof.
  revert i f. induction k as [|k IH]; intros i f; [done|].
  cbn [SolutionChecker.read_records lines_of]. destruct (Py.readline f) as [l f'].
  cbn [records_from]. unfold checker_record. rewrite <-IH.
  destruct (Py.split (Py.strip l)) as [|t0 rest]; reflexivity.
Qed.

(** What the optimizer's reader needs of a record: two tokens, the second
    an integer. *)
Definition record_ok line : Prop :=
  ∃ t0 t1 rest n, line = t0 :: t1 :: rest ∧ Py.int t1 = Some n.

#[global] Instance record_ok_dec line : Decision (record_ok line).
Proof.
  destruct line as [|t0 [|t1 rest]].
  - right. by intros (? & ? & ? & ? & [=] & _).
  - right. by intros (? & ? & ? & ? & [=] & _).
  - destruct (Py.int t1) as [n|] eqn:Hn.
    + left. by exists t0, t1, rest, n.
    + right. intros (? & ? & ? & ? & [= -> -> ->] & ?). congruence.
Defined.

(** The photo the optimizer's reader makes of such a record. *)
Definition photo_of_record i line : Photo :=
  mkPhoto i (bool_decide (line !! 0 = Some (txt "H")))
    (list_to_set (Py.slice line 2 (2 + default 0%Z (line !! 1 ≫= Py.int)))).

Lemma optimizer_record_ok i line :
  record_ok line → optimizer_record i line = Return (photo_of_record i line).
Proof.
  intros (t0 & t1 & rest & n & -> & Hn).
  unfold optimizer_record, photo_of_record.
  rewrite getitem_0, getitem_1. cbn [or_raise]. rewrite !bind_Return, Hn.
  cbn [or_raise]. rewrite bind_Return. cbn [lookup list_lookup mbind option_bind].
  rewrite Hn. cbn [default]. do 2 f_equal.
  apply bool_decide_ext. split; [by intros ->|by intros [=]].
Qed.

Lemma optimizer_record_bad i line :
  ¬ record_ok line → raises (optimizer_record i line).
Proof.
  intros Hbad. unfold optimizer_record.
  destruct line as [|t0 [|t1 rest]]; [done|done|].
  rewrite getitem_0, getitem_1. cbn [or_raise]. rewrite !bind_Return.
  destruct (Py.int t1) as [n|] eqn:Hn; [|done].
  destruct Hbad. by exists t0, t1, rest, n.
Qed.

Lemma records_from_ok i ls :
  Forall record_ok ls →
  records_from optimizer_record i ls
  = Return (imap (λ k, photo_of_record (i + Z.of_nat k)) ls).
Proof.
  intros H. revert i. induction H as [|line ls Hl _ IH]; intros i; [done|].
  cbn [records_from imap]. rewrite optimizer_record_ok, bind_Return, IH by done.
  rewrite bind_Return, Z.add_0_r. do 2 f_equal.
  apply imap_ext. intros k ? _. cbn. f_equal. lia.
Qed.

Lemma records_from_bad i ls :
  ¬ Forall record_ok ls → raises (records_from optimizer_record i ls).
Proof.
  revert i. induction ls as [|line ls IH]; intros i Hbad.
  { destruct Hbad. constructor. }
  cbn [records_from].
  destruct (optimizer_record i line) as [p|e] eqn:Hp; [|done].
  rewrite bind_Return.
  assert (record_ok line) as Hl.
  { destruct (decide (∃ n, line !! 1 ≫= Py.int = Some n)) as [[n Hn]|Hno].
    - destruct line as [|t0 [|t1 rest]]; [done|done|]. by exists t0, t1, rest, n.
    - pose proof (optimizer_record_bad i line) as Hr. rewrite Hp in Hr.
      destruct Hr. intros (t0 & t1 & rest & n & -> & Hn). apply Hno. by exists n. }
  specialize (IH (i + 1)%Z).
  destruct (records_from optimizer_record (i + 1) ls); [|done].
  destruct IH. intros Hls. apply Hbad. by constructor.
Qed.
End readers.

(** A text file given by its lines. *)
Definition file_of (lines : list string) : str :=
  l ← lines; txt l ++ [Py.newline].

Lemma read_input_header f :
  Slideshow.read_input f
  = match Py.int (Py.readline f).1 with
    | None => Raise ValueError
    | Some n => records_from optimizer_record 0 (lines_of (Z.to_nat n) (Py.readline f).2)
    end.
Proof.
  unfold Slideshow.read_input. destruct (Py.readline f) as [l f']. cbn [fst snd].
  destruct (Py.int l); [|done]. cbn [or_raise]. rewrite bind_Return.
  apply optimizer_read_records.
Qed.

Lemma read_input_file_header f :
  SolutionChecker.read_input_file f
  = match Py.int (Py.readline f).1 with
    | None => Raise ValueError
    | Some n => records_from checker_record 0 (lines_of (Z.to_nat n) (Py.readline f).2)
    end.
Proof.
  unfold SolutionChecker.read_input_file. destruct (Py.readline f) as [l f'].
  cbn [fst snd]. rewrite int_strip.
  destruct (Py.int l); [|done]. cbn [or_raise]. rewrite bind_Return.
  apply checker_read_records.
Qed.

(** C5, as stated, fails: a file that declares one record and has two,
    whose orientation token is [X] and whose record declares three tags
    and has one, is loaded without an error. *)
Lemma C5_counterexample :
  Slideshow.read_input (file_of ["1"; "X 3 a"; "H 0"])
  = Return [mkPhoto 0 false {[ txt "a" ]}].
Proof. by vm_compute. Qed.

(** C5 (amended): catalog loading raises exactly when the first line is
    not an integer, or one of the records it then reads (as many lines as
    that integer says, a line past the end of the file being empty) has
    fewer than two tokens or a second token that is not an integer.
    Otherwise it returns one photo per record read, horizontal exactly
    when the first token is [H], with the tokens of [line[2:2+n_tags]]
    as tags. *)
Theorem C5_read_input (f : str) :
  match Py.int (Py.readline f).1 with
  | None => Slideshow.read_input f = Raise ValueError
  | Some n =>
      let ls := lines_of (Z.to_nat n) (Py.readline f).2 in
      (Forall record_ok ls
       ∧ Slideshow.read_input f
         = Return (imap (λ k, photo_of_record (Z.of_nat k)) ls))
      ∨ (¬ Forall record_ok ls ∧ raises (Slideshow.read_input f))
  end.
Proof.
  pose proof (read_input_header f) as Hh.
  destruct (Py.int _) as [n|]; [|done].
  intros ls. fold ls in Hh. rewrite Hh.
  destruct (decide (Forall record_ok ls)) as [Hok|Hbad].
  - left. split; [done|]. by rewrite records_from_ok.
  - right. split; [done|]. by apply records_from_bad.
Qed.

(** A record whose declared tag count covers the tokens that follow it. *)
Definition record_covered (line : list str) : Prop :=
  ∃ t0 t1 rest n,
    line = t0 :: t1 :: rest ∧ Py.int t1 = Some n ∧ (Z.of_nat (length rest) ≤ n)%Z.

Lemma record_covered_ok line : record_covered line → record_ok line.
Proof. intros (t0 & t1 & rest & n & -> & Hn & _). by exists t0, t1, rest, n. Qed.

Lemma slice_covered {A} (t0 t1 : A) (rest : list A) (n : Z) :
  (Z.of_nat (length rest) ≤ n)%Z →
  Py.slice (t0 :: t1 :: rest) 2 (2 + n) = rest.
Proof.
  intros Hn. unfold Py.slice.
  replace (Z.of_nat (length (t0 :: t1 :: rest)))
    with (2 + Z.of_nat (length rest))%Z by (cbn [length]; lia).
  cbv zeta.
  destruct (2 <? 0)%Z eqn:H2; [lia|].
  destruct (2 + n <? 0)%Z eqn:H2n; [lia|].
  rewrite (Z.min_l 2), (Z.min_r (2 + n)) by lia.
  change (Z.to_nat 2) with 2. cbn [drop]. apply take_ge. lia.
Qed.

Lemma checker_record_covered i line :
  record_covered line → checker_record i line = Return (photo_of_record i line).
Proof.
  intros (t0 & t1 & rest & n & -> & Hn & Hle).
  unfold checker_record, photo_of_record.
  rewrite getitem_0. cbn [or_raise]. rewrite bind_Return.
  cbn [lookup list_lookup mbind option_bind drop]. rewrite Hn. cbn [default].
  rewrite slice_covered by done. do 2 f_equal.
  apply bool_decide_ext. split; [by intros ->|by intros [=]].
Qed.

Lemma checker_records_covered i ls :
  Forall record_covered ls →
  records_from checker_record i ls
  = Return (imap (λ k, photo_of_record (i + Z.of_nat k)) ls).
Proof.
  intros H. revert i. induction H as [|line ls Hl _ IH]; intros i; [done|].
  cbn [records_from imap]. rewrite checker_record_covered, bind_Return, IH by done.
  rewrite bind_Return, Z.add_0_r. do 2 f_equal.
  apply imap_ext. intros k ? _. cbn. f_equal. lia.
Qed.

Lemma indexed_imap (ls : list (list str)) :
  indexed (imap (λ k, photo_of_record (Z.of_nat k)) ls).
Proof.
  unfold indexed. rewrite length_imap. apply list_eq. intros k.
  rewrite !list_lookup_fmap, list_lookup_imap.
  destruct (ls !! k) as [line|] eqn:Hk; simpl.
  - by rewrite (lookup_seq_lt 0 (length ls) k) by by eapply lookup_lt_Some.
  - by rewrite lookup_seq_ge by by apply lookup_ge_None.
Qed.

(** Whatever the optimizer's reader returns is numbered in order. *)
Lemma read_input_indexed f photos :
  Slideshow.read_input f = Return photos → indexed photos.
Proof.
  pose proof (read_input_header f) as Hh.
  destruct (Py.int _) as [n|]; [|congruence].
  set (ls := lines_of _ _) in *. intros Hr. rewrite Hh in Hr.
  destruct (decide (Forall record_ok ls)) as [Hok|Hbad].
  - rewrite records_from_ok in Hr by done. injection Hr as <-. apply indexed_imap.
  - apply (records_from_bad 0) in Hbad. by rewrite Hr in Hbad.
Qed.

(** C4, as stated, fails: on a record that declares one tag and has two,
    the optimizer's reader keeps one tag and the checker's keeps both. *)
Lemma C4_counterexample :
  Slideshow.read_input (file_of ["1"; "H 1 a b"])
  ≠ SolutionChecker.read_input_file (file_of ["1"; "H 1 a b"]).
Proof.
  assert (Slideshow.read_input (file_of ["1"; "H 1 a b"])
          = Return [mkPhoto 0 true {[ txt "a" ]}]) as -> by by vm_compute.
  assert (SolutionChecker.read_input_file (file_of ["1"; "H 1 a b"])
          = Return [mkPhoto 0 true {[ txt "a"; txt "b" ]}]) as -> by by vm_compute.
  intros H. assert (txt "b" ∈ ({[ txt "a" ]} : tagset)) as Hb.
  { replace ({[ txt "a" ]} : tagset) with ({[ txt "a"; txt "b" ]} : tagset)
      by congruence.
    set_solver. }
  by apply elem_of_singleton in Hb.
Qed.

(** C4 (amended): on a catalog file whose first line is an integer and
    whose records each have an integer tag count that is at least the
    number of tokens after it, the two readers return the same list of
    photos, numbered in order. *)
Theorem C4_readers_agree (f : str) (n : Z) :
  Py.int (Py.readline f).1 = Some n →
  Forall record_covered (lines_of (Z.to_nat n) (Py.readline f).2) →
  ∃ photos, Slideshow.read_input f = Return photos
    ∧ SolutionChecker.read_input_file f = Return photos
    ∧ indexed photos.
Proof.
  intros Hn Hls. rewrite read_input_header, read_input_file_header, Hn.
  eexists. split_and!.
  - apply (records_from_ok 0). eapply Forall_impl; [done|apply record_covered_ok].
  - by apply (checker_records_covered 0).
  - apply indexed_imap.
Qed.

(** C4 on a file of two records whose tag counts are exact. *)
Lemma C4_readers_agree_witness :
  Py.int (Py.readline (file_of ["2"; "H 2 a b"; "V 1 x"])).1 = Some 2%Z
  ∧ Forall record_covered
      (lines_of (Z.to_nat 2) (Py.readline (file_of ["2"; "H 2 a b"; "V 1 x"])).2)
  ∧ ∃ photos, Slideshow.read_input (file_of ["2"; "H 2 a b"; "V 1 x"]) = Return photos
      ∧ SolutionChecker.read_input_file (file_of ["2"; "H 2 a b"; "V 1 x"]) = Return photos
      ∧ indexed photos.
Proof.
  assert (Py.int (Py.readline (file_of ["2"; "H 2 a b"; "V 1 x"])).1 = Some 2%Z)
    as Hn by by vm_compute.
  assert (Forall record_covered
            (lines_of (Z.to_nat 2) (Py.readline (file_of ["2"; "H 2 a b"; "V 1 x"])).2))
    as Hls.
  { change (Forall record_covered
      [[txt "H"; txt "2"; txt "a"; txt "b"]; [txt "V"; txt "1"; txt "x"]]).
    constructor; [|constructor; [|constructor]].
    - exists (txt "H"), (txt "2"), [txt "a"; txt "b"], 2%Z. by vm_compute.
    - exists (txt "V"), (txt "1"), [txt "x"], 1%Z. by vm_compute. }
  split; [done|]. split; [done|]. exact (C4_readers_agree _ _ Hn Hls).
Defined.

(** ** Counting occurrences *)

Section counting.
Implicit Types (x y : Z) (l : list Z).

Definition occ x l : nat := sum_list_with (λ y, Nat.b2n (bool_decide (x = y))) l.

Lemma occ_not_in x l : x ∉ l → occ x l = 0.
Proof.
  induction l as [|y l IH]; [done|]. intros [Hy Hl]%not_elem_of_cons.
  unfold occ in *. cbn [sum_list_with]. rewrite IH by done.
  by rewrite bool_decide_eq_false_2.
Qed.

Lemma NoDup_occ l : (∀ x, occ x l ≤ 1) → NoDup l.
Proof.
  induction l as [|y l IH]; intros H; [constructor|].
  constructor.
  - intros Hy. specialize (H y). unfold occ in H. cbn [sum_list_with] in H.
    rewrite bool_decide_eq_true_2 in H by done.
    apply list_elem_of_split in Hy as (l1 & l2 & ->).
    rewrite sum_list_with_app in H. cbn [sum_list_with] in H.
    rewrite bool_decide_eq_true_2 in H by done. simpl in H. lia.
  - apply IH. intros x. specialize (H x). unfold occ in *.
    cbn [sum_list_with] in H. lia.
Qed.

Lemma sum_list_with_bind {A B} (f : B → nat) (g : A → list B) (l : list A) :
  sum_list_with f (l ≫= g) = sum_list_with (λ a, sum_list_with f (g a)) l.
Proof.
  induction l as [|a l IH]; [done|].
  cbn [mbind list_bind sum_list_with] in *. by rewrite sum_list_with_app, IH.
Qed.

Lemma sum_list_with_add {A} (f g : A → nat) (l : list A) :
  sum_list_with (λ a, f a + g a) l = sum_list_with f l + sum_list_with g l.
Proof. induction l as [|a l IH]; cbn [sum_list_with]; lia. Qed.

Lemma sum_list_with_0 {A} (f : A → nat) (l : list A) :
  (∀ a, a ∈ l → f a = 0) → sum_list_with f l = 0.
Proof.
  induction l as [|a l IH]; intros H; cbn [sum_list_with]; [done|].
  rewrite (H a) by left. rewrite IH; [done|]. intros b Hb. apply H. by right.
Qed.

Lemma sum_list_with_swap {A B} (f : A → B → nat) (la : list A) (lb : list B) :
  sum_list_with (λ a, sum_list_with (f a) lb) la
  = sum_list_with (λ b, sum_list_with (λ a, f a b) la) lb.
Proof.
  induction la as [|a la IH]; cbn [sum_list_with].
  - symmetry. by apply sum_list_with_0.
  - by rewrite IH, sum_list_with_add.
Qed.

Lemma sum_list_with_filter {A} (P : A → Prop) `{∀ a, Decision (P a)}
    (f : A → nat) (l : list A) :
  sum_list_with f (filter P l)
  = sum_list_with (λ a, Nat.b2n (bool_decide (P a)) * f a) l.
Proof.
  induction l as [|a l IH]; [done|]. rewrite filter_cons. cbn [sum_list_with].
  destruct (decide (P a)).
  - rewrite bool_decide_eq_true_2 by done. cbn [sum_list_with]. simpl. lia.
  - rewrite bool_decide_eq_false_2 by done. simpl. lia.
Qed.

(** In a list without repetition, a sum weighted by [x = y] picks the
    term at [x]. *)
Lemma sum_list_with_pick (f : Z → nat) x l :
  NoDup l →
  sum_list_with (λ y, Nat.b2n (bool_decide (x = y)) * f y) l
  = if decide (x ∈ l) then f x else 0.
Proof.
  induction 1 as [|y l Hy Hnd IH]; [done|]. cbn [sum_list_with]. rewrite IH.
  destruct (decide (x = y)) as [->|Hne].
  - rewrite bool_decide_eq_true_2 by done.
    rewrite decide_False by done. rewrite decide_True by left. simpl. lia.
  - rewrite bool_decide_eq_false_2 by done.
    destruct (decide (x ∈ l)).
    + rewrite decide_True by (by right). simpl. lia.
    + rewrite decide_False; [simpl; lia|]. by intros [?|?]%elem_of_cons.
Qed.
End counting.

(** ** The checker's dict of a catalog numbered in order *)

Section catalog_dict.
Variable photos : list Photo.
Hypothesis Hidx : indexed photos.

Lemma dict_lookup_other (l : list Photo) (m : gmap Z Photo) (k : Z) :
  k ∉ id <$> l →
  foldl (λ m photo, <[id photo := photo]> m) m l !! k = m !! k.
Proof.
  revert m. induction l as [|q l IH]; intros m Hk; [done|].
  cbn [foldl]. apply not_elem_of_cons in Hk as [Hq Hk].
  rewrite IH by done. by rewrite lookup_insert_ne.
Qed.

Lemma dict_lookup_in (l : list Photo) (m : gmap Z Photo) (p : Photo) :
  NoDup (id <$> l) → p ∈ l →
  foldl (λ m photo, <[id photo := photo]> m) m l !! id p = Some p.
Proof.
  revert m. induction l as [|q l IH]; intros m Hnd Hp.
  { by apply elem_of_nil in Hp. }
  cbn [foldl]. rewrite fmap_cons in Hnd. apply NoDup_cons in Hnd as [Hq Hnd].
  apply elem_of_cons in Hp as [->|Hp].
  - rewrite dict_lookup_other by done. by rewrite lookup_insert_eq.
  - by apply IH.
Qed.

Lemma checker_lookup p :
  p ∈ photos →
  SolutionChecker.photos (SolutionChecker.init photos) !! id p = Some p.
Proof. apply dict_lookup_in, indexed_NoDup, Hidx. Qed.

Lemma horizontal_wide i :
  i ∈ horizontal_ids photos → wide (SolutionChecker.init photos) i.
Proof.
  intros (p & -> & [Hh Hp]%list_elem_of_filter)%list_elem_of_fmap.
  exists p. split; [by apply checker_lookup|done].
Qed.

Lemma vertical_narrow i :
  i ∈ vertical_ids photos → narrow (SolutionChecker.init photos) i.
Proof.
  intros (p & -> & [Hh Hp]%list_elem_of_filter)%list_elem_of_fmap.
  exists p. split; [by apply checker_lookup|done].
Qed.

Lemma wide_known self i : wide self i → known self i.
Proof. intros (p & Hp & _). apply elem_of_dom. by exists p. Qed.

Lemma narrow_known self i : narrow self i → known self i.
Proof. intros (p & Hp & _). apply elem_of_dom. by exists p. Qed.

Lemma photo_id_index i :
  is_photo_id photos i → ∃ k, k < length photos ∧ i = Z.of_nat k.
Proof.
  intros (p & -> & [k Hk]%list_elem_of_lookup)%list_elem_of_fmap.
  exists k. split; [by eapply lookup_lt_Some|by eapply indexed_lookup].
Qed.
End catalog_dict.

(** ** The slides read off a solved model *)

Section extract.
Import Slideshow.
Variable photos : list Photo.
Hypothesis Hidx : indexed photos.
Variable self : optimizer.
Hypothesis Hn : n_photos self = length photos.
Hypothesis Hh : horizontal_photos self = horizontal_ids photos.
Hypothesis Hp : vertical_pairs self = combinations2 (vertical_ids photos).
Variable x : unit_key → nat → bool.
Hypothesis Hc : constraints self x.

Definition h_slides (p : nat) : list (list Z) :=
  i ← horizontal_photos self; if x (KH i) p then [[i]] else [].

Definition p_slides (p : nat) : list (list Z) :=
  pair ← vertical_pairs self; if x (KP pair) p then [[pair.1; pair.2]] else [].

Lemma extract_rows :
  extract self x = (p ← seq 0 (n_photos self); h_slides p ++ p_slides p).
Proof. done. Qed.

Lemma elem_of_concat {A} (a : A) (ls : list (list A)) :
  a ∈ concat ls ↔ ∃ l, a ∈ l ∧ l ∈ ls.
Proof.
  induction ls as [|l ls IH]; cbn [concat].
  { split; [by intros ?%elem_of_nil|by intros (? & _ & ?%elem_of_nil)]. }
  rewrite elem_of_app, IH. split.
  - intros [?|(l' & ? & ?)]; [exists l; split; [done|left]|exists l'; split; [done|by right]].
  - intros (l' & Ha & [->|?]%elem_of_cons); [by left|right; by exists l'].
Qed.

Lemma elem_of_extract slide :
  slide ∈ extract self x →
  (∃ i, i ∈ horizontal_ids photos ∧ slide = [i])
  ∨ (∃ a b, (a, b) ∈ combinations2 (vertical_ids photos) ∧ slide = [a; b]).
Proof.
  rewrite extract_rows. intros (p & Hs & _)%list_elem_of_bind.
  apply elem_of_app in Hs as [Hs|Hs].
  - left. apply list_elem_of_bind in Hs as (i & Hs & Hi). exists i.
    rewrite <-Hh. split; [done|].
    destruct (x (KH i) p); [by apply list_elem_of_singleton in Hs|by apply elem_of_nil in Hs].
  - right. apply list_elem_of_bind in Hs as ([a b] & Hs & Hab). exists a, b.
    rewrite <-Hp. split; [done|].
    destruct (x (KP (a, b)) p); [by apply list_elem_of_singleton in Hs|by apply elem_of_nil in Hs].
Qed.

Lemma pair_vertical a b :
  (a, b) ∈ combinations2 (vertical_ids photos) →
  a ≠ b ∧ a ∈ vertical_ids photos ∧ b ∈ vertical_ids photos.
Proof. apply combinations2_distinct, NoDup_vertical_ids, Hidx. Qed.

(** How often an id stands in the slides of position [p]. *)
Lemma occ_h_slides y p :
  occ y (concat (h_slides p))
  = sum_list_with (λ i, Nat.b2n (bool_decide (y = i)) * Nat.b2n (x (KH i) p))
      (horizontal_photos self).
Proof.
  unfold h_slides. generalize (horizontal_photos self) as l.
  intros l. induction l as [|i l IH]; [done|].
  cbn [mbind list_bind sum_list_with] in *. rewrite concat_app.
  unfold occ in *. rewrite sum_list_with_app, IH.
  destruct (x (KH i) p); cbn; lia.
Qed.

Lemma occ_p_slides y p :
  occ y (concat (p_slides p))
  = sum_list_with
      (λ pair : Z * Z, Nat.b2n (bool_decide (y = pair.1 ∨ y = pair.2))
                       * Nat.b2n (x (KP pair) p))
      (vertical_pairs self).
Proof.
  unfold p_slides. rewrite Hp.
  assert (∀ pair, pair ∈ combinations2 (vertical_ids photos) → pair.1 ≠ pair.2) as Hd.
  { intros [a b] Hab. by apply pair_vertical in Hab as [? _]. }
  revert Hd. generalize (combinations2 (vertical_ids photos)) as l.
  intros l. induction l as [|[a b] l IH]; intros Hd; [done|].
  cbn [mbind list_bind sum_list_with] in *. rewrite concat_app.
  unfold occ in *. rewrite sum_list_with_app, IH by (intros ??; apply Hd; by right).
  f_equal. specialize (Hd (a, b)). cbn [fst snd] in *.
  destruct (x (KP (a, b)) p); cbn; [|lia].
  destruct (decide (y = a)) as [->|Ha].
  - rewrite bool_decide_eq_true_2 by done.
    rewrite bool_decide_eq_false_2 by (apply Hd; left).
    rewrite bool_decide_eq_true_2 by (by left). done.
  - rewrite (bool_decide_eq_false_2 (y = a)) by done.
    destruct (decide (y = b)) as [->|Hb].
    + rewrite bool_decide_eq_true_2 by done.
      rewrite bool_decide_eq_true_2 by (by right). done.
    + rewrite bool_decide_eq_false_2 by done.
      rewrite bool_decide_eq_false_2 by (by intros [?|?]). done.
Qed.

Lemma occ_extract y :
  occ y (concat (extract self x))
  = sum_list_with (λ i, Nat.b2n (bool_decide (y = i))
      * sum_list_with (λ p, Nat.b2n (x (KH i) p)) (seq 0 (n_photos self)))
      (horizontal_photos self)
    + sum_list_with
        (λ pair, sum_list_with (λ p, Nat.b2n (x (KP pair) p)) (seq 0 (n_photos self)))
        (filter (λ pair : Z * Z, y = pair.1 ∨ y = pair.2) (vertical_pairs self)).
Proof.
  rewrite extract_rows.
  assert (∀ l : list nat,
    occ y (concat (p ← l; h_slides p ++ p_slides p))
    = sum_list_with (λ p, occ y (concat (h_slides p)) + occ y (concat (p_slides p))) l)
    as ->.
  { intros l. induction l as [|p l IH]; [done|].
    cbn [mbind list_bind sum_list_with] in *. rewrite !concat_app.
    unfold occ in *. by rewrite !sum_list_with_app, IH. }
  rewrite sum_list_with_add. f_equal.
  - rewrite (sum_list_with_ext_in _ _ _ (λ p _, occ_h_slides y p)).
    rewrite sum_list_with_swap. apply sum_list_with_ext_in. intros i _.
    induction (seq 0 (n_photos self)) as [|p l IH]; cbn [sum_list_with]; lia.
  - rewrite (sum_list_with_ext_in _ _ _ (λ p _, occ_p_slides y p)).
    rewrite sum_list_with_swap, sum_list_with_filter.
    apply sum_list_with_ext_in. intros pair _.
    induction (seq 0 (n_photos self)) as [|p l IH]; cbn [sum_list_with]; lia.
Qed.

Lemma photo_load_bound i :
  is_photo_id photos i → photo_load self x i ≤ 1.
Proof.
  intros (k & Hk & ->)%(photo_id_index _ Hidx).
  destruct Hc as [_ Hload]. rewrite Forall_forall in Hload.
  apply Hload, elem_of_seq. lia.
Qed.

Lemma occ_extract_bound y : occ y (concat (extract self x)) ≤ 1.
Proof.
  rewrite occ_extract.
  rewrite sum_list_with_pick by (rewrite Hh; apply NoDup_horizontal_ids, Hidx).
  destruct (decide (y ∈ horizontal_photos self)) as [Hy|Hy].
  - pose proof (photo_load_bound y) as Hb. unfold photo_load in Hb.
    rewrite decide_True in Hb by done.
    rewrite (sum_list_with_0 _ (filter _ _)).
    + rewrite Nat.add_0_r. apply Hb, horizontal_ids_photo. by rewrite <-Hh.
    + intros [a b] [Hab Hin]%list_elem_of_filter. exfalso.
      rewrite Hp in Hin. apply pair_vertical in Hin as (_ & Ha & Hb').
      rewrite Hh in Hy. cbn [fst snd] in Hab.
      destruct Hab as [-> | ->]; by eapply horizontal_not_vertical.
  - destruct (decide (y ∈ id <$> photos)) as [Hid|Hid].
    + pose proof (photo_load_bound y Hid) as Hb. unfold photo_load in Hb.
      by rewrite decide_False in Hb by done.
    + rewrite (sum_list_with_0 _ (filter _ _)); [lia|].
      intros [a b] [Hab Hin]%list_elem_of_filter. exfalso. apply Hid.
      rewrite Hp in Hin. apply pair_vertical in Hin as (_ & Ha & Hb').
      cbn [fst snd] in Hab. destruct Hab as [-> | ->]; by apply vertical_ids_photo.
Qed.

(** The slides of a solved model that meets the constraints pass the
    checker. *)
Lemma extract_feasible : feasible (SolutionChecker.init photos) (extract self x).
Proof.
  unfold feasible. split_and!.
  - apply Forall_forall. intros slide [(i & _ & ->)|(a & b & _ & ->)]%elem_of_extract;
      [by left|by right].
  - apply NoDup_occ, occ_extract_bound.
  - apply Forall_forall. intros y (slide & Hy & Hs)%elem_of_concat.
    apply elem_of_extract in Hs as [(i & Hi & ->)|(a & b & Hab & ->)].
    + apply list_elem_of_singleton in Hy as ->.
      by apply wide_known, horizontal_wide.
    + apply pair_vertical in Hab as (_ & Ha & Hb).
      apply elem_of_cons in Hy as [->|Hy]; [by apply narrow_known, vertical_narrow|].
      apply list_elem_of_singleton in Hy as ->.
      by apply narrow_known, vertical_narrow.
  - apply Forall_forall. intros slide Hs y ->.
    apply elem_of_extract in Hs as [(i & Hi & [= ->])|(a & b & _ & [=])].
    by apply horizontal_wide.
  - apply Forall_forall. intros slide Hs y z ->.
    apply elem_of_extract in Hs as [(i & _ & [=])|(a & b & Hab & [= -> ->])].
    apply pair_vertical in Hab as (_ & Ha & Hb).
    split; by apply vertical_narrow.
Qed.
End extract.

(** ** The result of [optimize] *)

(** C2, as stated, fails: when the engine stops with a status other than
    OPTIMAL and TIME_LIMIT (here an interrupted run), [optimize] returns
    no sequence, and score 0. *)
Lemma C2_counterexample :
  ∃ self, Slideshow.init example_photos = Return self
    ∧ Slideshow.optimize self
        (Slideshow.mkSolved Slideshow.INTERRUPTED (λ _ _, false) 0%Q)
      = (None, 0%Q).
Proof.
  destruct (init_spec example_photos example_indexed) as (self & Hinit & _).
  by exists self.
Qed.

(** C2 (amended): on a catalog numbered in order [__init__] succeeds, and
    when the engine stops with status OPTIMAL or TIME_LIMIT holding
    values that meet the constraints [optimize] posted, [optimize]
    returns the slides read off those values together with the engine's
    objective value, and the checker accepts these slides. With any other
    status it returns no sequence and score 0. *)
Theorem C2_optimize (photos : list Photo) (m : Slideshow.solved) :
  indexed photos →
  ∃ self, Slideshow.init photos = Return self
    ∧ (Slideshow.status m = Slideshow.OPTIMAL
       ∨ Slideshow.status m = Slideshow.TIME_LIMIT →
       Slideshow.constraints self (Slideshow.X m) →
       ∃ solution,
         Slideshow.optimize self m = (Some solution, Slideshow.objVal m)
         ∧ SolutionChecker.is_valid_solution (SolutionChecker.init photos) solution
           = Return SolutionChecker.Valid)
    ∧ (Slideshow.status m ≠ Slideshow.OPTIMAL →
       Slideshow.status m ≠ Slideshow.TIME_LIMIT →
       Slideshow.optimize self m = (None, 0%Q)).
Proof.
  intros Hidx.
  destruct (init_spec photos Hidx) as (self & Hinit & _ & Hn & Hh & _ & Hp & _).
  exists self. split; [done|]. split.
  - intros Hst Hc. exists (Slideshow.extract self (Slideshow.X m)). split.
    + unfold Slideshow.optimize. by destruct Hst as [-> | ->].
    + apply is_valid_solution_valid. by apply extract_feasible.
  - intros H1 H2. unfold Slideshow.optimize. by destruct (Slideshow.status m).
Qed.

(** A solved model for the example catalog: the two horizontal photos,
    then the vertical pair. *)
Definition example_solved : Slideshow.solved :=
  Slideshow.mkSolved Slideshow.TIME_LIMIT
    (λ u p,
       match u, p with
       | Slideshow.KH 0%Z, 0 | Slideshow.KH 1%Z, 1
       | Slideshow.KP (2%Z, 3%Z), 2 => true
       | _, _ => false
       end)
    1%Q.

(** C2 on the example catalog, the engine stopped by the time limit. *)
Lemma C2_optimize_witness :
  indexed example_photos
  ∧ ∃ self, Slideshow.init example_photos = Return self
      ∧ Slideshow.optimize self example_solved
        = (Some [[0]; [1]; [2; 3]]%Z, 1%Q)
      ∧ SolutionChecker.is_valid_solution example_checker [[0]; [1]; [2; 3]]%Z
        = Return SolutionChecker.Valid.
Proof.
  split; [apply example_indexed|].
  destruct (C2_optimize example_photos example_solved example_indexed)
    as (self & Hinit & Hok & _).
  exists self. split; [done|].
  assert (Slideshow.n_photos self = 4
          ∧ Slideshow.horizontal_photos self = [0; 1]%Z
          ∧ Slideshow.vertical_pairs self = [(2, 3)]%Z) as (Hn & Hh & Hp).
  { vm_compute in Hinit. by injection Hinit as <-. }
  destruct Hok as (solution & Hopt & Hvalid).
  - by right.
  - unfold Slideshow.constraints, Slideshow.position_load, Slideshow.photo_load.
    rewrite Hn, Hh, Hp. split; repeat (constructor; [vm_compute; lia|]); constructor.
  - assert (solution = [[0]; [1]; [2; 3]]%Z) as ->.
    { unfold Slideshow.optimize, Slideshow.extract in Hopt.
      rewrite Hn, Hh, Hp in Hopt. by injection Hopt as <-. }
    done.
Defined.

(** * Further properties of the two programs *)

(** ** The transition score: sharper bounds *)

Section score_bounds.
Implicit Types A B : tagset.

Lemma size_split A B : size A = size (A ∩ B) + size (A ∖ B).
Proof.
  rewrite <-size_union by set_solver. f_equal. apply set_eq. intros x.
  rewrite elem_of_union, elem_of_intersection, elem_of_difference.
  destruct (decide (x ∈ B)); naive_solver.
Qed.

Lemma size_zero_iff A : size A = 0 ↔ A = ∅.
Proof. rewrite size_empty_iff. by unfold_leibniz. Qed.
End score_bounds.

(** X1: twice the transition score is at most the size of either tag
    set: a transition never scores more than half of the smaller set. *)
Theorem X1_score_half (A B : tagset) :
  2 * Slideshow.get_transition_score A B ≤ size A
  ∧ 2 * Slideshow.get_transition_score A B ≤ size B.
Proof.
  unfold Slideshow.get_transition_score, Py.min3.
  pose proof (size_split A B). pose proof (size_split B A).
  rewrite (inter_comm B A) in *. lia.
Qed.

(** X2: the transition score is 0 exactly when the two tag sets share no
    tag or one of them contains the other. *)
Theorem X2_score_zero (A B : tagset) :
  Slideshow.get_transition_score A B = 0 ↔ A ## B ∨ A ⊆ B ∨ B ⊆ A.
Proof.
  unfold Slideshow.get_transition_score, Py.min3.
  assert (size (A ∩ B) = 0 ↔ A ## B) as <-.
  { rewrite size_zero_iff. set_solver. }
  assert (size (A ∖ B) = 0 ↔ A ⊆ B) as <-.
  { rewrite size_zero_iff. split; [|set_solver].
    intros H x Hx. destruct (decide (x ∈ B)); [done|]. set_solver. }
  assert (size (B ∖ A) = 0 ↔ B ⊆ A) as <-.
  { rewrite size_zero_iff. split; [|set_solver].
    intros H x Hx. destruct (decide (x ∈ A)); [done|]. set_solver. }
  lia.
Qed.

(** ** The score of a sequence: errors, splitting and reversal *)

Section aggregator_more.
Import SolutionChecker.
Variable self : checker.

Lemma adjacent_sum_split (xs : list tagset) (s : tagset) (ys : list tagset) :
  adjacent_sum (xs ++ s :: ys) = adjacent_sum (xs ++ [s]) + adjacent_sum (s :: ys).
Proof.
  induction xs as [|x xs IH]; [done|].
  destruct xs as [|x' xs].
  - cbn [app]. rewrite (adjacent_sum_cons x s ys), (adjacent_sum_cons x s []).
    change (adjacent_sum [s]) with 0. lia.
  - cbn [app] in *. rewrite !(adjacent_sum_cons x x'), IH. lia.
Qed.

Lemma score_sym (A B : tagset) :
  compute_transition_score A B = compute_transition_score B A.
Proof.
  unfold compute_transition_score, Py.min3. rewrite (inter_comm B A). lia.
Qed.

Lemma adjacent_sum_reverse (l : list tagset) :
  adjacent_sum (reverse l) = adjacent_sum l.
Proof.
  induction l as [|a l IH]; [done|].
  destruct l as [|b r]; [done|].
  rewrite reverse_cons, (reverse_cons r b), <-app_assoc. cbn [app].
  rewrite adjacent_sum_split, <-reverse_cons, IH, !adjacent_sum_cons.
  rewrite (score_sym b a). change (adjacent_sum [a]) with 0. lia.
Qed.

Lemma mapM_tags_unknown (slide : list Z) :
  ¬ Forall (known self) slide →
  mapM (λ photo_id, tags <$> photo_of self photo_id) slide = Raise KeyError.
Proof.
  induction slide as [|x r IH]; intros Hbad.
  { destruct Hbad. constructor. }
  cbn [mapM]. unfold photo_of in *.
  destruct (photos self !! x) as [p|] eqn:Hp; [|reflexivity].
  cbn [or_raise fmap result_fmap]. rewrite bind_Return, IH; [reflexivity|].
  intros Hr. apply Hbad. constructor; [|done]. apply elem_of_dom. by exists p.
Qed.

Lemma get_slide_tags_unknown (slide : list Z) :
  ¬ Forall (known self) slide → get_slide_tags self slide = Raise KeyError.
Proof. intros H. unfold get_slide_tags. by rewrite mapM_tags_unknown. Qed.

#[local] Instance known_dec x : Decision (known self x).
Proof. unfold known. apply _. Defined.

Lemma score_loop_unknown previous_tags total_score (slides : list (list Z)) :
  ¬ Forall (known self) (concat slides) →
  score_loop self previous_tags total_score slides = Raise KeyError.
Proof.
  revert previous_tags total_score.
  induction slides as [|slide rest IH]; intros prev total Hbad.
  { destruct Hbad. constructor. }
  cbn [score_loop].
  destruct (decide (Forall (known self) slide)) as [Hs|Hs].
  - rewrite get_slide_tags_known, bind_Return by done. apply IH.
    intros Hr. apply Hbad. cbn [concat]. by apply Forall_app.
  - by rewrite get_slide_tags_unknown.
Qed.

(** [compute_score] in one equation. *)
Lemma compute_score_cases (slides : list (list Z)) :
  compute_score self slides
  = if decide (Forall (known self) (concat slides))
    then Return (adjacent_sum (slide_tags self <$> slides))
    else Raise KeyError.
Proof.
  destruct (decide _) as [Hk|Hbad].
  - destruct slides as [|slide0 rest]; [done|]. cbn [compute_score concat] in *.
    apply Forall_app in Hk as [Hs Hk].
    rewrite get_slide_tags_known, bind_Return by done.
    by rewrite score_loop_known.
  - destruct slides as [|slide0 rest]; [destruct Hbad; constructor|].
    cbn [compute_score].
    destruct (decide (Forall (known self) slide0)) as [Hs|Hs].
    + rewrite get_slide_tags_known, bind_Return by done.
      apply score_loop_unknown. intros Hr. apply Hbad. cbn [concat].
      by apply Forall_app.
    + by rewrite get_slide_tags_unknown.
Qed.
End aggregator_more.

(** X3: [compute_score] raises exactly when some slide holds an id that
    is not in the catalog, wherever it stands, and the error is then a
    [KeyError]; otherwise it returns a score. *)
Theorem X3_compute_score_errors (self : SolutionChecker.checker) (slides : list (list Z)) :
  (raises (SolutionChecker.compute_score self slides)
   ↔ ∃ x, x ∈ concat slides ∧ ¬ known self x)
  ∧ (raises (SolutionChecker.compute_score self slides) →
     SolutionChecker.compute_score self slides = Raise KeyError).
Proof.
  rewrite compute_score_cases.
  destruct (decide (Forall (known self) (concat slides))) as [Hk|Hbad].
  - split; [|done]. split; [done|]. intros (x & Hx & Hn).
    rewrite Forall_forall in Hk. by apply Hn, Hk.
  - split; [|done]. split; [|done]. intros _.
    apply not_Forall_Exists in Hbad; [|intros x; apply known_dec].
    apply Exists_exists in Hbad as (x & Hx & Hn). by exists x.
Qed.

(** X4: showing the slides in the opposite order gives the same result:
    the same total score, or the same error. *)
Theorem X4_compute_score_reverse (self : SolutionChecker.checker) (slides : list (list Z)) :
  SolutionChecker.compute_score self (reverse slides)
  = SolutionChecker.compute_score self slides.
Proof.
  rewrite !compute_score_cases.
  assert (Forall (known self) (concat (reverse slides))
          ↔ Forall (known self) (concat slides)) as Hiff.
  { rewrite !Forall_forall. setoid_rewrite elem_of_concat.
    setoid_rewrite elem_of_reverse. done. }
  destruct (decide (Forall (known self) (concat slides))) as [Hk|Hbad].
  - rewrite decide_True by by apply Hiff.
    by rewrite fmap_reverse, adjacent_sum_reverse.
  - rewrite decide_False; [done|]. by rewrite Hiff.
Qed.

(** X5: the total score splits at any slide: the score of a sequence is
    the score up to that slide plus the score from that slide on. *)
Theorem X5_compute_score_split (self : SolutionChecker.checker)
    (before : list (list Z)) (slide : list Z) (after : list (list Z)) :
  Forall (known self) (concat (before ++ slide :: after)) →
  ∃ a b,
    SolutionChecker.compute_score self (before ++ [slide]) = Return a
    ∧ SolutionChecker.compute_score self (slide :: after) = Return b
    ∧ SolutionChecker.compute_score self (before ++ slide :: after) = Return (a + b).
Proof.
  intros Hk. rewrite !compute_score_cases.
  rewrite concat_app in Hk. cbn [concat] in Hk.
  apply Forall_app in Hk as [Hb Hk]. pose proof Hk as [Hs Ha]%Forall_app.
  rewrite !decide_True.
  - eexists _, _. split; [done|]. split; [done|].
    rewrite !fmap_app. cbn [fmap list_fmap]. by rewrite adjacent_sum_split.
  - rewrite concat_app. cbn [concat]. by rewrite !Forall_app.
  - done.
  - rewrite concat_app. cbn [concat]. rewrite app_nil_r. by apply Forall_app.
Qed.

(** X5 on the example catalog. *)
Lemma X5_compute_score_split_witness :
  Forall (known example_checker) (concat ([[0]] ++ [1] :: [[2; 3]]))%Z
  ∧ ∃ a b,
      SolutionChecker.compute_score example_checker ([[0]] ++ [[1]])%Z = Return a
      ∧ SolutionChecker.compute_score example_checker ([1] :: [[2; 3]])%Z = Return b
      ∧ SolutionChecker.compute_score example_checker ([[0]] ++ [1] :: [[2; 3]])%Z
        = Return (a + b).
Proof.
  assert (Forall (known example_checker) (concat ([[0]] ++ [1] :: [[2; 3]]))%Z) as Hk.
  { simpl. repeat (constructor; [apply example_known; lia|]). constructor. }
  split; [done|]. exact (X5_compute_score_split example_checker _ _ _ Hk).
Defined.

(** X6: a sequence the validator accepts is scored without error. *)
Theorem X6_valid_then_scored (self : SolutionChecker.checker) (slides : list (list Z)) :
  SolutionChecker.is_valid_solution self slides = Return SolutionChecker.Valid →
  SolutionChecker.compute_score self slides
  = Return (adjacent_sum (slide_tags self <$> slides)).
Proof.
  intros (_ & _ & Hk & _)%is_valid_solution_valid.
  rewrite compute_score_cases. by rewrite decide_True.
Qed.

(** X6 on the example catalog. *)
Lemma X6_valid_then_scored_witness :
  SolutionChecker.is_valid_solution example_checker [[0]; [1]; [2; 3]]%Z
  = Return SolutionChecker.Valid
  ∧ SolutionChecker.compute_score example_checker [[0]; [1]; [2; 3]]%Z = Return 1.
Proof.
  assert (SolutionChecker.is_valid_solution example_checker [[0]; [1]; [2; 3]]%Z
          = Return SolutionChecker.Valid) as Hv by by vm_compute.
  split; [done|]. rewrite (X6_valid_then_scored _ _ Hv). by vm_compute.
Defined.

(** ** The validator: what it looks at, and what a valid sequence is *)

Section validator_more.
Import SolutionChecker.
Implicit Types (self : checker) (slides : list (list Z)).

(** The orientation the catalog records for an id, if any. *)
Definition orientation self (x : Z) : option bool :=
  is_horizontal <$> photos self !! x.

Lemma check_ids_orientation self self' used slide :
  (∀ x, orientation self x = orientation self' x) →
  check_ids self used slide = check_ids self' used slide.
Proof.
  intros Ho. revert used. induction slide as [|x r IH]; intros used; [done|].
  cbn [check_ids]. destruct (decide (x ∈ used)); [done|].
  assert (x ∉ dom (photos self) ↔ x ∉ dom (photos self')) as Hd.
  { rewrite !not_elem_of_dom. specialize (Ho x). unfold orientation in Ho.
    destruct (photos self !! x), (photos self' !! x); naive_solver. }
  destruct (decide (x ∉ dom (photos self))), (decide (x ∉ dom (photos self')));
    [done|tauto|tauto|apply IH].
Qed.

Lemma photo_of_orientation self self' x :
  orientation self x = orientation self' x →
  is_horizontal <$> photo_of self x = is_horizontal <$> photo_of self' x.
Proof.
  unfold orientation, photo_of.
  by destruct (photos self !! x), (photos self' !! x); intros [=]; cbn; f_equal.
Qed.

Lemma single_vertical_orientation self self' slide :
  (∀ x, orientation self x = orientation self' x) →
  single_vertical self slide = single_vertical self' slide.
Proof.
  intros Ho. unfold single_vertical. destruct (decide _); [|done].
  destruct (Py.getitem slide 0) as [s0|]; [|done].
  cbn [or_raise mbind result_bind].
  pose proof (photo_of_orientation self self' s0 (Ho s0)) as H.
  destruct (photo_of self s0), (photo_of self' s0); cbn in *; congruence.
Qed.

Lemma pair_has_horizontal_orientation self self' slide :
  (∀ x, orientation self x = orientation self' x) →
  pair_has_horizontal self slide = pair_has_horizontal self' slide.
Proof.
  intros Ho. unfold pair_has_horizontal.
  destruct (Py.getitem slide 0) as [s0|]; [|done].
  cbn [or_raise mbind result_bind].
  pose proof (photo_of_orientation self self' s0 (Ho s0)) as H0.
  destruct (photo_of self s0) as [p0|], (photo_of self' s0) as [p0'|];
    cbn in H0; try congruence; [|by injection H0 as ->].
  injection H0 as H0. cbn [mbind result_bind]. rewrite H0.
  destruct (is_horizontal p0'); [done|].
  destruct (Py.getitem slide 1) as [s1|]; [|done].
  cbn [or_raise mbind result_bind].
  pose proof (photo_of_orientation self self' s1 (Ho s1)) as H1.
  destruct (photo_of self s1), (photo_of self' s1); cbn in *; congruence.
Qed.

Lemma check_slides_orientation self self' used i slides :
  (∀ x, orientation self x = orientation self' x) →
  check_slides self used i slides = check_slides self' used i slides.
Proof.
  intros Ho. revert used i. induction slides as [|slide rest IH]; intros used i; [done|].
  cbn [check_slides]. destruct (decide _); [done|].
  rewrite (check_ids_orientation self self') by done.
  destruct (check_ids self' used slide) as [v|used']; [done|].
  rewrite (single_vertical_orientation self self') by done.
  destruct (single_vertical self' slide) as [[]|]; cbn; try done.
  destruct (decide (length slide = 2)).
  - rewrite (pair_has_horizontal_orientation self self') by done.
    destruct (pair_has_horizontal self' slide) as [[]|]; cbn; first [done|apply IH].
  - cbn. first [done|apply IH].
Qed.

Lemma concat_Permutation {A} (l l' : list (list A)) :
  l ≡ₚ l' → concat l ≡ₚ concat l'.
Proof.
  induction 1 as [|x l l' _ IH|x y l|l l' l'' _ IH1 _ IH2]; cbn [concat].
  - done.
  - by rewrite IH.
  - rewrite !app_assoc. f_equiv. apply Permutation_app_comm.
  - by rewrite IH1.
Qed.

Lemma Forall_perm {A} (P : A → Prop) (l l' : list A) :
  l ≡ₚ l' → Forall P l → Forall P l'.
Proof.
  intros Hp. rewrite !Forall_forall. intros H x Hx. apply H.
  by apply (elem_of_Permutation_proper x _ _ Hp).
Qed.

Lemma feasible_Permutation self slides slides' :
  slides ≡ₚ slides' → feasible self slides → feasible self slides'.
Proof.
  intros Hp (H1 & H2 & H3 & H4 & H5). pose proof (concat_Permutation _ _ Hp) as Hc.
  unfold feasible. split_and!.
  - by apply (Forall_perm _ _ _ Hp).
  - by apply (NoDup_Permutation_proper _ _ Hc).
  - by apply (Forall_perm _ _ _ Hc).
  - by apply (Forall_perm _ _ _ Hp).
  - by apply (Forall_perm _ _ _ Hp).
Qed.

Lemma dict_size (l : list Photo) (m : gmap Z Photo) :
  size (dom (foldl (λ m photo, <[id photo := photo]> m) m l)) ≤ size (dom m) + length l.
Proof.
  revert m. induction l as [|p l IH]; intros m; cbn [foldl length]; [lia|].
  etrans; [apply IH|]. rewrite dom_insert_L.
  pose proof (size_union_alt {[id p]} (dom m)) as Hu.
  assert (size (dom m ∖ {[id p]}) ≤ size (dom m)) by (apply subseteq_size; set_solver).
  rewrite size_singleton in Hu. lia.
Qed.

Lemma length_le_concat (slides : list (list Z)) :
  Forall (λ slide, length slide = 1 ∨ length slide = 2) slides →
  length slides ≤ length (concat slides) ≤ 2 * length slides.
Proof.
  induction 1 as [|slide rest Hs _ IH]; cbn [concat length]; [lia|].
  rewrite length_app. lia.
Qed.
End validator_more.

(** X7: the validator looks at nothing but the ids and the orientations:
    two catalogs that record the same orientation for every id (whatever
    their tags and their lengths) give the same verdict on every
    sequence. *)
Theorem X7_validator_ignores_tags (self self' : SolutionChecker.checker)
    (slides : list (list Z)) :
  (∀ x, orientation self x = orientation self' x) →
  SolutionChecker.is_valid_solution self slides
  = SolutionChecker.is_valid_solution self' slides.
Proof. intros Ho. by apply check_slides_orientation. Qed.

(** X7 on the example catalog and the same catalog without its tags. *)
Lemma X7_validator_ignores_tags_witness :
  (∀ x, orientation example_checker x
        = orientation (SolutionChecker.init
            ((λ p, mkPhoto (id p) (is_horizontal p) ∅) <$> example_photos)) x)
  ∧ SolutionChecker.is_valid_solution example_checker [[2; 3]; [0]]%Z
    = SolutionChecker.is_valid_solution
        (SolutionChecker.init
           ((λ p, mkPhoto (id p) (is_horizontal p) ∅) <$> example_photos))
        [[2; 3]; [0]]%Z.
Proof.
  assert (∀ x, orientation example_checker x
        = orientation (SolutionChecker.init
            ((λ p, mkPhoto (id p) (is_horizontal p) ∅) <$> example_photos)) x) as Ho.
  { intros x. unfold orientation, example_checker, SolutionChecker.init, example_photos.
    cbn [fmap list_fmap foldl SolutionChecker.photos id is_horizontal].
    destruct (decide (x = 3%Z)) as [->|]; [by rewrite !lookup_insert_eq|].
    rewrite !(lookup_insert_ne _ 3%Z) by done.
    destruct (decide (x = 2%Z)) as [->|]; [by rewrite !lookup_insert_eq|].
    rewrite !(lookup_insert_ne _ 2%Z) by done.
    destruct (decide (x = 1%Z)) as [->|]; [by rewrite !lookup_insert_eq|].
    rewrite !(lookup_insert_ne _ 1%Z) by done.
    destruct (decide (x = 0%Z)) as [->|]; [by rewrite !lookup_insert_eq|].
    by rewrite !(lookup_insert_ne _ 0%Z), !lookup_empty by done. }
  split; [done|]. exact (X7_validator_ignores_tags _ _ _ Ho).
Defined.

(** X8: validity does not depend on the order of the slides: a
    rearrangement of a valid sequence is valid. *)
Theorem X8_valid_permutation (self : SolutionChecker.checker)
    (slides slides' : list (list Z)) :
  slides ≡ₚ slides' →
  SolutionChecker.is_valid_solution self slides = Return SolutionChecker.Valid →
  SolutionChecker.is_valid_solution self slides' = Return SolutionChecker.Valid.
Proof.
  intros Hp Hv. apply is_valid_solution_valid.
  apply (feasible_Permutation self slides); [done|]. by apply is_valid_solution_valid.
Qed.

(** X8 on the example catalog. *)
Lemma X8_valid_permutation_witness :
  [[0]; [1]; [2; 3]]%Z ≡ₚ [[2; 3]; [0]; [1]]%Z
  ∧ SolutionChecker.is_valid_solution example_checker [[0]; [1]; [2; 3]]%Z
    = Return SolutionChecker.Valid
  ∧ SolutionChecker.is_valid_solution example_checker [[2; 3]; [0]; [1]]%Z
    = Return SolutionChecker.Valid.
Proof.
  assert ([[0]; [1]; [2; 3]]%Z ≡ₚ [[2; 3]; [0]; [1]]%Z) as Hp.
  { change ([[0]; [1]] ++ [[2; 3]] ≡ₚ [[2; 3]] ++ [[0]; [1]])%Z.
    apply Permutation_app_comm. }
  assert (SolutionChecker.is_valid_solution example_checker [[0]; [1]; [2; 3]]%Z
          = Return SolutionChecker.Valid) as Hv by by vm_compute.
  split; [done|]. split; [done|].
  exact (X8_valid_permutation example_checker _ _ Hp Hv).
Defined.

(** X9: a sequence that is valid for the catalog has at most as many
    slides as the catalog has photos, and holds between as many ids as it
    has slides and twice as many, none more than the catalog has. *)
Theorem X9_valid_length (photos : list Photo) (slides : list (list Z)) :
  SolutionChecker.is_valid_solution (SolutionChecker.init photos) slides
  = Return SolutionChecker.Valid →
  length slides ≤ length (concat slides) ≤ 2 * length slides
  ∧ length (concat slides) ≤ SolutionChecker.n_photos (SolutionChecker.init photos).
Proof.
  intros (Hlen & Hnd & Hk & _)%is_valid_solution_valid.
  split; [by apply length_le_concat|].
  cbn [SolutionChecker.n_photos SolutionChecker.init].
  rewrite <-(size_list_to_set (C:=gset Z)) by done.
  etrans; [apply (subseteq_size _ (dom (SolutionChecker.photos (SolutionChecker.init photos))))|].
  { intros x Hx%elem_of_list_to_set. rewrite Forall_forall in Hk. by apply Hk. }
  etrans; [apply dict_size|]. by rewrite dom_empty_L, size_empty.
Qed.

(** X9 on the example catalog. *)
Lemma X9_valid_length_witness :
  SolutionChecker.is_valid_solution (SolutionChecker.init example_photos)
    [[0]; [1]; [2; 3]]%Z = Return SolutionChecker.Valid
  ∧ length [[0]; [1]; [2; 3]]%Z ≤ length (concat [[0]; [1]; [2; 3]]%Z)
      ≤ 2 * length [[0]; [1]; [2; 3]]%Z
  ∧ length (concat [[0]; [1]; [2; 3]]%Z)
    ≤ SolutionChecker.n_photos (SolutionChecker.init example_photos).
Proof.
  assert (SolutionChecker.is_valid_solution (SolutionChecker.init example_photos)
            [[0]; [1]; [2; 3]]%Z = Return SolutionChecker.Valid) as Hv by by vm_compute.
  split; [done|]. exact (X9_valid_length _ _ Hv).
Defined.

(** ** The solution reader *)

Section solution_reader.
Implicit Types (line : list str) (f : str).

(** A line of the solution file that the reader accepts: one or two
    tokens, each an integer. *)
Definition slide_line_ok line : Prop :=
  (length line = 1 ∨ length line = 2) ∧ is_Some (mapM Py.int line).

#[global] Instance slide_line_ok_dec line : Decision (slide_line_ok line).
Proof. unfold slide_line_ok. apply _. Defined.

(** The slide such a line stands for. *)
Definition slide_of_line line : list Z := default [] (mapM Py.int line).

Lemma read_slides_ok k f :
  Forall slide_line_ok (lines_of k f) →
  SolutionChecker.read_slides k f = Return (slide_of_line <$> lines_of k f).
Proof.
  revert f. induction k as [|k IH]; intros f; [done|].
  cbn [SolutionChecker.read_slides lines_of]. destruct (Py.readline f) as [l f'].
  intros [[Hlen Hs] Hr]%Forall_cons.
  rewrite decide_True by set_solver.
  cbn [fmap list_fmap]. unfold slide_of_line at 1.
  destruct (mapM Py.int (Py.split (Py.strip l))) as [slide|];
    [|by destruct Hs as [? [=]]].
  cbn [or_raise default]. by rewrite bind_Return, IH, bind_Return by done.
Qed.

Lemma read_slides_bad k f :
  ¬ Forall slide_line_ok (lines_of k f) →
  SolutionChecker.read_slides k f = Raise ValueError.
Proof.
  revert f. induction k as [|k IH]; intros f.
  { intros H. destruct H. constructor. }
  cbn [SolutionChecker.read_slides lines_of]. destruct (Py.readline f) as [l f'].
  intros Hbad. destruct (decide (length (Py.split (Py.strip l)) ∈ [1; 2])) as [Hlen|Hlen];
    [|done].
  destruct (mapM Py.int (Py.split (Py.strip l))) as [slide|] eqn:Hs; [|done].
  cbn [or_raise]. rewrite bind_Return, IH; [done|].
  intros Hr. apply Hbad. constructor; [|done].
  split; [set_solver|by eexists].
Qed.

Lemma mapM_int_length line slide :
  mapM Py.int line = Some slide → length slide = length line.
Proof.
  revert slide. induction line as [|t line IH]; intros slide; cbn [mapM].
  { by intros [= <-]. }
  destruct (Py.int t); [|done]. cbn [mbind option_bind].
  destruct (mapM Py.int line) as [r|]; [|done]. cbn [mbind option_bind mret option_ret].
  intros [= <-]. cbn [length]. f_equal. by apply IH.
Qed.

Lemma read_solution_file_header f :
  SolutionChecker.read_solution_file f
  = match Py.int (Py.readline f).1 with
    | None => Raise ValueError
    | Some n => SolutionChecker.read_slides (Z.to_nat n) (Py.readline f).2
    end.
Proof.
  unfold SolutionChecker.read_solution_file. destruct (Py.readline f) as [l f'].
  cbn [fst snd]. rewrite int_strip. by destruct (Py.int l).
Qed.
End solution_reader.

(** X10: the solution reader raises exactly when the first line is not
    an integer or one of the lines it then reads (as many as that integer
    says, a line past the end of the file being empty) has no token, more
    than two, or a token that is not an integer; the error is always a
    [ValueError]. Otherwise it returns one slide per line read, made of
    the integers of that line; what follows those lines is not read. *)
Theorem X10_read_solution_file (f : str) :
  match Py.int (Py.readline f).1 with
  | None => SolutionChecker.read_solution_file f = Raise ValueError
  | Some n =>
      let ls := lines_of (Z.to_nat n) (Py.readline f).2 in
      (Forall slide_line_ok ls
       ∧ SolutionChecker.read_solution_file f = Return (slide_of_line <$> ls))
      ∨ (¬ Forall slide_line_ok ls
         ∧ SolutionChecker.read_solution_file f = Raise ValueError)
  end.
Proof.
  pose proof (read_solution_file_header f) as Hh.
  destruct (Py.int _) as [n|]; [|done].
  intros ls. fold ls in Hh. rewrite Hh.
  destruct (decide (Forall slide_line_ok ls)) as [Hok|Hbad].
  - left. split; [done|]. by apply read_slides_ok.
  - right. split; [done|]. by apply read_slides_bad.
Qed.

(** X11: every sequence the solution reader returns has slides of one or
    two ids, so on a sequence read from a file the validator never
    reports an invalid number of photos. *)
Theorem X11_read_slides_sizes (f : str) (slides : list (list Z))
    (self : SolutionChecker.checker) :
  SolutionChecker.read_solution_file f = Return slides →
  Forall (λ slide, length slide = 1 ∨ length slide = 2) slides
  ∧ ∀ i len, SolutionChecker.is_valid_solution self slides
             ≠ Return (SolutionChecker.InvalidCount i len).
Proof.
  intros Hr.
  assert (Forall (λ slide, length slide = 1 ∨ length slide = 2) slides) as Hlen.
  { rewrite read_solution_file_header in Hr.
    destruct (Py.int _) as [n|]; [|congruence].
    destruct (decide (Forall slide_line_ok (lines_of (Z.to_nat n) (Py.readline f).2)))
      as [Hok|Hbad]; [|rewrite read_slides_bad in Hr by done; congruence].
    rewrite read_slides_ok in Hr by done. injection Hr as <-.
    apply Forall_fmap. eapply Forall_impl; [done|].
    intros line [Hl [slide Hs]]. unfold slide_of_line. cbn. rewrite Hs. cbn.
    by rewrite (mapM_int_length _ _ Hs). }
  split; [done|]. intros i len Hv.
  destruct (check_slides_violation self ∅ 0 slides _ Hv) as
    (pre & slide & post & -> & _ & Hs); [done|].
  apply Forall_app in Hlen as [_ [Hl _]%Forall_cons].
  inversion Hs; lia.
Qed.

(** X11 on a file of two slides. *)
Lemma X11_read_slides_sizes_witness :
  SolutionChecker.read_solution_file (file_of ["2"; "0"; "2 3"])
  = Return [[0]; [2; 3]]%Z
  ∧ Forall (λ slide : list Z, length slide = 1 ∨ length slide = 2) [[0]; [2; 3]]%Z
  ∧ ∀ i len, SolutionChecker.is_valid_solution example_checker [[0]; [2; 3]]%Z
             ≠ Return (SolutionChecker.InvalidCount i len).
Proof.
  assert (SolutionChecker.read_solution_file (file_of ["2"; "0"; "2 3"])
          = Return [[0]; [2; 3]]%Z) as Hr by by vm_compute.
  split; [done|]. exact (X11_read_slides_sizes _ _ example_checker Hr).
Defined.

(** ** The two catalog readers, side by side *)

Section readers_more.
Implicit Types (line : list str) (f : str) (i : Z).

(** How a photo of the optimizer's reader relates to the photo the
    checker's reader makes of the same record. *)
Definition same_but_tags (p p' : Photo) : Prop :=
  id p = id p' ∧ is_horizontal p = is_horizontal p' ∧ tags p ⊆ tags p'.

Lemma slice_from_2 {A} (l : list A) (stop : Z) (x : A) :
  x ∈ Py.slice l 2 stop → x ∈ drop 2 l.
Proof.
  unfold Py.slice. cbv zeta.
  destruct (2 <? 0)%Z eqn:H2; [lia|]. clear H2.
  intros Hx. eapply elem_of_sublist in Hx; [|apply sublist_take].
  destruct (decide (2 ≤ length l)) as [Hl|Hl].
  - by rewrite Z.min_l in Hx by lia.
  - rewrite Z.min_r, Nat2Z.id, drop_all in Hx by lia. by apply elem_of_nil in Hx.
Qed.

Lemma checker_record_of_ok i line p :
  optimizer_record i line = Return p →
  ∃ p', checker_record i line = Return p' ∧ same_but_tags p p'.
Proof.
  unfold optimizer_record, checker_record.
  destruct line as [|t0 [|t1 rest]]; [done|done|].
  rewrite getitem_0, getitem_1. cbn [or_raise]. rewrite !bind_Return.
  destruct (Py.int t1) as [n|]; [|done]. cbn [or_raise]. rewrite bind_Return.
  intros [= <-]. eexists. split; [done|]. split; [done|]. split; [done|].
  cbn [tags]. intros x Hx%elem_of_list_to_set%slice_from_2.
  by apply elem_of_list_to_set.
Qed.

Lemma checker_records_of_ok i ls photos :
  records_from optimizer_record i ls = Return photos →
  ∃ photos', records_from checker_record i ls = Return photos'
    ∧ Forall2 same_but_tags photos photos'.
Proof.
  revert i photos. induction ls as [|line ls IH]; intros i photos.
  { intros [= <-]. by exists []. }
  cbn [records_from].
  destruct (optimizer_record i line) as [p|] eqn:Hp; [|done].
  rewrite bind_Return.
  destruct (records_from optimizer_record (i + 1) ls) as [rest|] eqn:Hr; [|done].
  rewrite bind_Return. intros [= <-].
  destruct (checker_record_of_ok _ _ _ Hp) as (p' & -> & Hpp).
  destruct (IH _ _ Hr) as (rest' & -> & Hrest).
  exists (p' :: rest'). split; [done|]. by constructor.
Qed.

Lemma records_from_length parse i ls photos :
  records_from parse i ls = Return photos → length photos = length ls.
Proof.
  revert i photos. induction ls as [|line ls IH]; intros i photos.
  { by intros [= <-]. }
  cbn [records_from]. destruct (parse i line) as [p|]; [|done].
  rewrite bind_Return.
  destruct (records_from parse (i + 1) ls) as [rest|] eqn:Hr; [|done].
  rewrite bind_Return. intros [= <-]. cbn [length]. f_equal. by eapply IH.
Qed.

Lemma length_lines_of k f : length (lines_of k f) = k.
Proof.
  revert f. induction k as [|k IH]; intros f; [done|].
  cbn [lines_of]. destruct (Py.readline f). cbn [length]. by rewrite IH.
Qed.
End readers_more.

(** X12: whenever the optimizer's reader loads a file, the checker's
    reader loads it too, with the same number of photos, the same ids and
    the same orientations; photo by photo, the checker's tags contain the
    optimizer's. *)
Theorem X12_checker_reader_wider (f : str) (photos : list Photo) :
  Slideshow.read_input f = Return photos →
  ∃ photos', SolutionChecker.read_input_file f = Return photos'
    ∧ Forall2 same_but_tags photos photos'.
Proof.
  rewrite read_input_header, read_input_file_header.
  destruct (Py.int _) as [n|]; [|done]. apply checker_records_of_ok.
Qed.

(** X12 on the file on which the two readers differ. *)
Lemma X12_checker_reader_wider_witness :
  Slideshow.read_input (file_of ["1"; "H 1 a b"])
  = Return [mkPhoto 0 true {[ txt "a" ]}]
  ∧ ∃ photos', SolutionChecker.read_input_file (file_of ["1"; "H 1 a b"])
               = Return photos'
      ∧ Forall2 same_but_tags [mkPhoto 0 true {[ txt "a" ]}] photos'.
Proof.
  assert (Slideshow.read_input (file_of ["1"; "H 1 a b"])
          = Return [mkPhoto 0 true {[ txt "a" ]}]) as Hr by by vm_compute.
  split; [done|]. exact (X12_checker_reader_wider _ _ Hr).
Defined.

(** X13: a catalog the optimizer's reader returns has as many photos as
    the first line of the file declares (none for a negative count), and
    numbers them 0, 1, ... in the order of the file. *)
Theorem X13_read_input_count (f : str) (photos : list Photo) :
  Slideshow.read_input f = Return photos →
  ∃ n, Py.int (Py.readline f).1 = Some n
    ∧ length photos = Z.to_nat n
    ∧ id <$> photos = Z.of_nat <$> seq 0 (Z.to_nat n).
Proof.
  intros Hr. pose proof (read_input_indexed _ _ Hr) as Hidx.
  rewrite read_input_header in Hr.
  destruct (Py.int _) as [n|]; [|done]. exists n. split; [done|].
  apply records_from_length in Hr. rewrite length_lines_of in Hr.
  split; [done|]. unfold indexed in Hidx. by rewrite Hidx, Hr.
Qed.

(** X13 on the file of the example catalog. *)
Lemma X13_read_input_count_witness :
  Slideshow.read_input (file_of ["4"; "H 2 a b"; "H 2 b c"; "V 1 x"; "V 1 y"])
  = Return example_photos
  ∧ ∃ n, Py.int (Py.readline
                   (file_of ["4"; "H 2 a b"; "H 2 b c"; "V 1 x"; "V 1 y"])).1 = Some n
      ∧ length example_photos = Z.to_nat n
      ∧ id <$> example_photos = Z.of_nat <$> seq 0 (Z.to_nat n).
Proof.
  assert (Slideshow.read_input (file_of ["4"; "H 2 a b"; "H 2 b c"; "V 1 x"; "V 1 y"])
          = Return example_photos) as Hr by by vm_compute.
  split; [done|]. exact (X13_read_input_count _ _ Hr).
Defined.

(** ** What [__init__] prepares *)

Section init_more.
Implicit Types (photos : list Photo).

Lemma ids_partition photos :
  horizontal_ids photos ++ vertical_ids photos ≡ₚ id <$> photos.
Proof.
  unfold horizontal_ids, vertical_ids. induction photos as [|p l IH]; [done|].
  rewrite !filter_cons. destruct (is_horizontal p) eqn:Hp.
  - rewrite decide_True, decide_False by done. cbn [fmap list_fmap app].
    by apply Permutation_skip.
  - rewrite decide_False, decide_True by done. cbn [fmap list_fmap].
    etrans; [symmetry; apply Permutation_middle|]. by apply Permutation_skip.
Qed.

Lemma length_combinations2 {A} (l : list A) :
  2 * length (Slideshow.combinations2 l) = length l * (length l - 1).
Proof.
  induction l as [|x r IH]; [done|].
  cbn [Slideshow.combinations2 length]. rewrite length_app, length_fmap. nia.
Qed.
End init_more.

(** X14: on a catalog numbered in order, [__init__] counts the photos,
    puts every id into exactly one of the horizontal and the vertical
    list, and makes v(v-1)/2 pairs of v vertical photos. *)
Theorem X14_init_counts (photos : list Photo) :
  indexed photos →
  ∃ self, Slideshow.init photos = Return self
    ∧ Slideshow.n_photos self = length photos
    ∧ Slideshow.horizontal_photos self ++ Slideshow.vertical_photos self
      ≡ₚ id <$> photos
    ∧ NoDup (Slideshow.horizontal_photos self ++ Slideshow.vertical_photos self)
    ∧ 2 * length (Slideshow.vertical_pairs self)
      = length (Slideshow.vertical_photos self)
        * (length (Slideshow.vertical_photos self) - 1).
Proof.
  intros Hidx.
  destruct (init_spec photos Hidx) as (self & Hinit & _ & Hn & Hh & Hv & Hp & _).
  exists self. rewrite Hh, Hv, Hp. split_and!; try done.
  - apply ids_partition.
  - apply (NoDup_Permutation_proper _ _ (ids_partition photos)).
    by apply indexed_NoDup.
  - apply length_combinations2.
Qed.

(** X14 on the example catalog. *)
Lemma X14_init_counts_witness :
  indexed example_photos
  ∧ ∃ self, Slideshow.init example_photos = Return self
      ∧ Slideshow.n_photos self = length example_photos
      ∧ Slideshow.horizontal_photos self ++ Slideshow.vertical_photos self
        ≡ₚ id <$> example_photos
      ∧ NoDup (Slideshow.horizontal_photos self ++ Slideshow.vertical_photos self)
      ∧ 2 * length (Slideshow.vertical_pairs self)
        = length (Slideshow.vertical_photos self)
          * (length (Slideshow.vertical_photos self) - 1).
Proof.
  split; [apply example_indexed|].
  exact (X14_init_counts example_photos example_indexed).
Defined.

(** ** The table of transition scores *)

Section score_table.
Import Slideshow.
Variable photos : list Photo.
Hypothesis Hidx : indexed photos.

Abbreviation table := (gmap (unit_key * unit_key) nat).

(** The tags of a unit: a photo's own, or the union of a pair's. *)
Definition unit_tags (u : unit_key) : tagset :=
  match u with
  | KH i => tags_of photos i
  | KP pr => tags_of photos pr.1 ∪ tags_of photos pr.2
  end.

Definition pair_score (k : unit_key * unit_key) : nat :=
  get_transition_score (unit_tags k.1) (unit_tags k.2).

(** The table holds the score of each key of [P], and no other key. *)
Definition table_of (P : unit_key * unit_key → Prop) (m : table) : Prop :=
  ∀ k, (P k → m !! k = Some (pair_score k)) ∧ (¬ P k → m !! k = None).

Lemma table_of_iff P Q m : (∀ k, P k ↔ Q k) → table_of P m → table_of Q m.
Proof.
  intros HPQ Hm k. destruct (Hm k) as [H1 H2]. split.
  - intros HQ. by apply H1, HPQ.
  - intros HQ. apply H2. by rewrite HPQ.
Qed.

Lemma table_of_insert P m k0 :
  table_of P m → table_of (λ k, P k ∨ k = k0) (<[k0 := pair_score k0]> m).
Proof.
  intros Hm k. destruct (Hm k) as [H1 H2]. destruct (decide (k = k0)) as [->|Hne].
  - rewrite lookup_insert_eq. split; [done|]. intros H. destruct H. by right.
  - rewrite lookup_insert_ne by done. split.
    + intros [?|?]; [by apply H1|done].
    + intros H. apply H2. intros ?. apply H. by left.
Qed.

Lemma for_each_table {A} (l : list A) (body : A → table → result table)
    (Q : A → unit_key * unit_key → Prop) P m :
  table_of P m →
  (∀ x P' m', x ∈ l → table_of P' m' →
     ∃ m'', body x m' = Return m'' ∧ table_of (λ k, P' k ∨ Q x k) m'') →
  ∃ m'', for_each l body m = Return m''
    ∧ table_of (λ k, P k ∨ ∃ x, x ∈ l ∧ Q x k) m''.
Proof.
  revert P m. induction l as [|x l IH]; intros P m Hm Hbody.
  { exists m. split; [done|]. eapply table_of_iff; [|done].
    intros k. split; [by left|]. by intros [?|(? & ?%elem_of_nil & _)]. }
  destruct (Hbody x P m) as (m1 & Hm1 & Ht1); [left|done|].
  rewrite for_each_cons, Hm1, bind_Return.
  destruct (IH _ m1 Ht1) as (m2 & -> & Ht2).
  { intros y P' m' Hy. apply Hbody. by right. }
  exists m2. split; [done|]. eapply table_of_iff; [|done].
  intros k. split.
  - intros [[?|?]|(y & Hy & ?)]; [by left|right; exists x; split; [left|done]|].
    right. exists y. split; [by right|done].
  - intros [?|(y & [->|Hy]%elem_of_cons & ?)]; [by left; left|by left; right|].
    right. by exists y.
Qed.

Lemma score_comm A B : get_transition_score A B = get_transition_score B A.
Proof. unfold get_transition_score, Py.min3. rewrite (inter_comm B A). lia. Qed.

Lemma scores_hh_table hs P m :
  (∀ i, i ∈ hs → is_photo_id photos i) →
  table_of P m →
  ∃ m', scores_hh photos hs m = Return m'
    ∧ table_of (λ k, P k ∨ ∃ i, i ∈ hs ∧ ∃ j, j ∈ hs ∧ i ≠ j ∧ k = (KH i, KH j)) m'.
Proof.
  intros Hhs Hm. unfold scores_hh.
  apply (for_each_table hs _ (λ i k, ∃ j, j ∈ hs ∧ i ≠ j ∧ k = (KH i, KH j))); [done|].
  intros i P1 m1 Hi Hm1.
  apply (for_each_table hs _ (λ j k, i ≠ j ∧ k = (KH i, KH j))); [done|].
  intros j P2 m2 Hj Hm2. destruct (decide (i ≠ j)) as [Hne|Heq].
  - rewrite !(tags_at_id photos Hidx) by by apply Hhs. rewrite !bind_Return.
    eexists. split; [done|].
    eapply table_of_iff; [|exact (table_of_insert P2 m2 (KH i, KH j) Hm2)].
    intros k. naive_solver.
  - exists m2. split; [done|]. eapply table_of_iff; [|done]. naive_solver.
Qed.

Lemma scores_hp_table hs pairs vpt P m :
  (∀ i, i ∈ hs → is_photo_id photos i) →
  (∀ pair, pair ∈ pairs →
     vpt !! pair = Some (tags_of photos pair.1 ∪ tags_of photos pair.2)) →
  table_of P m →
  ∃ m', scores_hp photos hs pairs vpt m = Return m'
    ∧ table_of (λ k, P k ∨ ∃ i, i ∈ hs ∧ ∃ pair, pair ∈ pairs
                   ∧ (k = (KH i, KP pair) ∨ k = (KP pair, KH i))) m'.
Proof.
  intros Hhs Hvpt Hm. unfold scores_hp.
  apply (for_each_table hs _
    (λ i k, ∃ pair, pair ∈ pairs ∧ (k = (KH i, KP pair) ∨ k = (KP pair, KH i))));
    [done|].
  intros i P1 m1 Hi Hm1.
  apply (for_each_table pairs _
    (λ pair k, k = (KH i, KP pair) ∨ k = (KP pair, KH i))); [done|].
  intros pair P2 m2 Hpair Hm2.
  rewrite (tags_at_id photos Hidx) by by apply Hhs. rewrite bind_Return.
  unfold pair_tags. rewrite (Hvpt pair Hpair). cbn [or_raise]. rewrite bind_Return.
  eexists. split; [done|].
  change (get_transition_score (tags_of photos i)
            (tags_of photos pair.1 ∪ tags_of photos pair.2))
    with (pair_score (KH i, KP pair)).
  assert (pair_score (KH i, KP pair) = pair_score (KP pair, KH i)) as Hsym
    by apply score_comm.
  rewrite Hsym at 1.
  eapply table_of_iff;
    [|exact (table_of_insert _ _ (KP pair, KH i)
               (table_of_insert P2 m2 (KH i, KP pair) Hm2))].
  intros k. naive_solver.
Qed.

Lemma scores_pp_table pairs vpt P m :
  (∀ pair, pair ∈ pairs →
     vpt !! pair = Some (tags_of photos pair.1 ∪ tags_of photos pair.2)) →
  table_of P m →
  ∃ m', scores_pp pairs vpt m = Return m'
    ∧ table_of (λ k, P k ∨ ∃ p1, p1 ∈ pairs ∧ ∃ p2, p2 ∈ pairs ∧ p1 ≠ p2
                   ∧ k = (KP p1, KP p2)) m'.
Proof.
  intros Hvpt Hm. unfold scores_pp.
  apply (for_each_table pairs _
    (λ p1 k, ∃ p2, p2 ∈ pairs ∧ p1 ≠ p2 ∧ k = (KP p1, KP p2))); [done|].
  intros p1 P1 m1 Hp1 Hm1.
  apply (for_each_table pairs _ (λ p2 k, p1 ≠ p2 ∧ k = (KP p1, KP p2))); [done|].
  intros p2 P2 m2 Hp2 Hm2. destruct (decide (p1 ≠ p2)) as [Hne|Heq].
  - unfold pair_tags. rewrite (Hvpt p1 Hp1), (Hvpt p2 Hp2). cbn [or_raise].
    rewrite !bind_Return. eexists. split; [done|].
    eapply table_of_iff; [|exact (table_of_insert P2 m2 (KP p1, KP p2) Hm2)].
    intros k. naive_solver.
  - exists m2. split; [done|]. eapply table_of_iff; [|done]. naive_solver.
Qed.

(** The units [optimize] places: the horizontal photos, then the pairs. *)
Definition units (self : optimizer) : list unit_key :=
  (KH <$> horizontal_photos self) ++ (KP <$> vertical_pairs self).

Lemma init_table :
  ∃ self, init photos = Return self
    ∧ horizontal_photos self = horizontal_ids photos
    ∧ vertical_pairs self = combinations2 (vertical_ids photos)
    ∧ n_photos self = length photos
    ∧ table_of (λ k, k.1 ∈ units self ∧ k.2 ∈ units self ∧ k.1 ≠ k.2)
        (transition_scores self).
Proof.
  unfold init. fold (horizontal_ids photos) (vertical_ids photos).
  destruct (pair_loop_spec photos Hidx (combinations2 (vertical_ids photos)) [] ∅)
    as (vpt & -> & Hvpt).
  { intros a b (_ & ? & ?)%(combinations2_distinct _ _ _ (NoDup_vertical_ids photos Hidx)).
    split; by apply vertical_ids_photo. }
  rewrite bind_Return. cbn [app].
  assert (∀ pair, pair ∈ combinations2 (vertical_ids photos) →
          vpt !! pair = Some (tags_of photos pair.1 ∪ tags_of photos pair.2)) as Hpt.
  { intros pair Hp. by rewrite Hvpt, decide_True. }
  assert (table_of (λ _, False) (∅ : table)) as H0.
  { intros k. split; [done|]. intros _. apply lookup_empty. }
  destruct (scores_hh_table (horizontal_ids photos) _ ∅
              (horizontal_ids_photo photos) H0) as (ts1 & -> & H1).
  rewrite bind_Return.
  destruct (scores_hp_table (horizontal_ids photos) _ vpt _ ts1
              (horizontal_ids_photo photos) Hpt H1) as (ts2 & -> & H2).
  rewrite bind_Return.
  destruct (scores_pp_table _ vpt _ ts2 Hpt H2) as (ts3 & -> & H3).
  rewrite bind_Return. eexists. split; [done|]. cbn. split_and!; try done.
  eapply table_of_iff; [|done]. intros [u v]. unfold units. cbn.
  rewrite !elem_of_app, !list_elem_of_fmap. split.
  - intros [[[[]|(i & Hi & j & Hj & Hne & [= -> ->])]
            |(i & Hi & pair & Hp & [[= -> ->]|[= -> ->]])]
           |(p1 & Hp1 & p2 & Hp2 & Hne & [= -> ->])].
    + split_and!; [left; by exists i|left; by exists j|congruence].
    + split_and!; [left; by exists i|right; by exists pair|done].
    + split_and!; [right; by exists pair|left; by exists i|done].
    + split_and!; [right; by exists p1|right; by exists p2|congruence].
  - intros ([(i & -> & Hi)|(p1 & -> & Hp1)] & [(j & -> & Hj)|(p2 & -> & Hp2)] & Hne).
    + left. left. right. exists i. split; [done|]. exists j. split; [done|].
      split; [congruence|done].
    + left. right. exists i. split; [done|]. exists p2. split; [done|]. by left.
    + left. right. exists j. split; [done|]. exists p1. split; [done|]. by right.
    + right. exists p1. split; [done|]. exists p2. split; [done|].
      split; [congruence|done].
Qed.
End score_table.

(** X15: on a catalog numbered in order, the table [__init__] fills has
    an entry for exactly the ordered pairs of two different units
    (horizontal photos and vertical pairs), and the entry is the
    transition score of the two units' tags; so the table is symmetric. *)
Theorem X15_transition_scores (photos : list Photo) :
  indexed photos →
  ∃ self, Slideshow.init photos = Return self
    ∧ (∀ u v, u ∈ units self → v ∈ units self → u ≠ v →
         Slideshow.transition_scores self !! (u, v)
         = Some (Slideshow.get_transition_score (unit_tags photos u) (unit_tags photos v)))
    ∧ (∀ u v, ¬ (u ∈ units self ∧ v ∈ units self ∧ u ≠ v) →
         Slideshow.transition_scores self !! (u, v) = None)
    ∧ (∀ u v, Slideshow.transition_scores self !! (u, v)
              = Slideshow.transition_scores self !! (v, u)).
Proof.
  intros Hidx. destruct (init_table photos Hidx) as (self & Hinit & _ & _ & _ & Ht).
  exists self. split; [done|].
  assert (∀ u v, u ∈ units self → v ∈ units self → u ≠ v →
    Slideshow.transition_scores self !! (u, v)
    = Some (Slideshow.get_transition_score (unit_tags photos u) (unit_tags photos v)))
    as H1.
  { intros u v Hu Hv Hne. by apply (Ht (u, v)). }
  assert (∀ u v, ¬ (u ∈ units self ∧ v ∈ units self ∧ u ≠ v) →
    Slideshow.transition_scores self !! (u, v) = None) as H2.
  { intros u v Hn. by apply (Ht (u, v)). }
  split; [done|]. split; [done|]. intros u v.
  destruct (decide (u ∈ units self ∧ v ∈ units self ∧ u ≠ v)) as [(Hu & Hv & Hne)|Hn].
  - rewrite (H1 u v), (H1 v u) by done. f_equal. apply score_comm.
  - rewrite (H2 u v), (H2 v u); [done| |done]. intros (? & ? & ?). apply Hn. done.
Qed.

(** X15 on the example catalog. *)
Lemma X15_transition_scores_witness :
  indexed example_photos
  ∧ ∃ self, Slideshow.init example_photos = Return self
      ∧ Slideshow.transition_scores self !! (Slideshow.KH 0, Slideshow.KH 1) = Some 1
      ∧ Slideshow.transition_scores self !! (Slideshow.KH 0, Slideshow.KH 0) = None.
Proof.
  split; [apply example_indexed|].
  destruct (X15_transition_scores example_photos example_indexed)
    as (self & Hinit & H1 & H2 & _).
  exists self. split; [done|].
  assert (units self = [Slideshow.KH 0; Slideshow.KH 1; Slideshow.KP (2, 3)]%Z) as Hu.
  { vm_compute in Hinit. by injection Hinit as <-. }
  split.
  - rewrite H1; [by vm_compute|rewrite Hu; set_solver..|done].
  - apply H2. by intros (_ & _ & ?).
Defined.

(** ** The positions of a solved model *)

Section positions.
Import Slideshow.
Variable self : optimizer.
Variable x : unit_key → nat → bool.

(** The slide a unit is shown as. *)
Definition slide_of (u : unit_key) : list Z :=
  match u with
  | KH i => [i]
  | KP pr => [pr.1; pr.2]
  end.

(** What [extract] reads at position [p], over the units in order. *)
Lemma extract_position (p : nat) :
  h_slides self x p ++ p_slides self x p
  = (u ← units self; if x u p then [slide_of u] else []).
Proof.
  unfold h_slides, p_slides, units. rewrite bind_app. f_equal.
  - induction (horizontal_photos self) as [|i l IH]; [done|].
    cbn [fmap list_fmap mbind list_bind] in *. by rewrite IH.
  - induction (vertical_pairs self) as [|pr l IH]; [done|].
    cbn [fmap list_fmap mbind list_bind] in *. by rewrite IH.
Qed.

Lemma position_load_units (p : nat) :
  position_load self x p = sum_list_with (λ u, Nat.b2n (x u p)) (units self).
Proof.
  unfold position_load, units. by rewrite sum_list_with_app, !sum_list_with_map.
Qed.

Lemma length_position (p : nat) :
  length (h_slides self x p ++ p_slides self x p) = position_load self x p.
Proof.
  rewrite extract_position, position_load_units.
  induction (units self) as [|u l IH]; [done|].
  cbn [mbind list_bind sum_list_with] in *. rewrite length_app, IH.
  by destruct (x u p).
Qed.

Lemma length_extract :
  length (extract self x)
  = sum_list_with (position_load self x) (seq 0 (n_photos self)).
Proof.
  rewrite extract_rows. induction (seq 0 (n_photos self)) as [|p l IH]; [done|].
  cbn [mbind list_bind sum_list_with] in *.
  by rewrite length_app, IH, length_position.
Qed.

Lemma sum_list_with_le_length {A} (f : A → nat) (l : list A) :
  Forall (λ a, f a ≤ 1) l → sum_list_with f l ≤ length l.
Proof. induction 1; cbn [sum_list_with length]; lia. Qed.
End positions.

(** X16: when the values of the solved model meet the constraints, the
    sequence read off them has as many slides as there are occupied
    positions, and so at most as many as the catalog has photos. *)
Theorem X16_extract_length (self : Slideshow.optimizer)
    (x : Slideshow.unit_key → nat → bool) :
  Slideshow.constraints self x →
  length (Slideshow.extract self x)
  = sum_list_with (Slideshow.position_load self x) (seq 0 (Slideshow.n_photos self))
  ∧ length (Slideshow.extract self x) ≤ Slideshow.n_photos self.
Proof.
  intros [Hpos _]. split; [apply length_extract|].
  rewrite length_extract. etrans; [by apply sum_list_with_le_length|].
  by rewrite length_seq.
Qed.

(** The optimizer of the example catalog, and the example's solved model. *)
Lemma example_optimizer :
  ∃ self, Slideshow.init example_photos = Return self
    ∧ Slideshow.n_photos self = 4
    ∧ Slideshow.horizontal_photos self = [0; 1]%Z
    ∧ Slideshow.vertical_pairs self = [(2, 3)]%Z
    ∧ Slideshow.constraints self (Slideshow.X example_solved).
Proof.
  destruct (init_spec example_photos example_indexed) as (self & Hinit & _).
  exists self. split; [done|].
  assert (Slideshow.n_photos self = 4
          ∧ Slideshow.horizontal_photos self = [0; 1]%Z
          ∧ Slideshow.vertical_pairs self = [(2, 3)]%Z) as (Hn & Hh & Hp).
  { vm_compute in Hinit. by injection Hinit as <-. }
  split_and!; try done.
  unfold Slideshow.constraints, Slideshow.position_load, Slideshow.photo_load.
  rewrite Hn, Hh, Hp. split; repeat (constructor; [vm_compute; lia|]); constructor.
Qed.

(** X16 on the example catalog. *)
Lemma X16_extract_length_witness :
  ∃ self, Slideshow.init example_photos = Return self
    ∧ Slideshow.constraints self (Slideshow.X example_solved)
    ∧ length (Slideshow.extract self (Slideshow.X example_solved))
      ≤ Slideshow.n_photos self.
Proof.
  destruct example_optimizer as (self & Hinit & _ & _ & _ & Hc).
  exists self. split; [done|]. split; [done|].
  by destruct (X16_extract_length self _ Hc) as [_ ?].
Defined.

(** ** The objective and the score the checker computes *)

(** The objective [optimize] gives the engine, at the values of a solved
    model: over the positions but the last, the table's score of the unit
    placed there and the unit placed next, 0 where the table has none. *)
Definition objective (self : Slideshow.optimizer)
    (x : Slideshow.unit_key → nat → bool) : nat :=
  sum_list_with (λ p,
    sum_list_with (λ i,
      sum_list_with (λ j,
        if decide (i ≠ j)
        then default 0 (Slideshow.transition_scores self !! (i, j))
             * Nat.b2n (x i p) * Nat.b2n (x j (p + 1))
        else 0)
      (units self))
    (units self))
  (seq 0 (Slideshow.n_photos self - 1)).

Section single.
Context {A : Type}.
Implicit Types (b : A → bool) (l : list A).

(** The first item of a list that [b] holds of. *)
Definition first_true b l : option A := head (filter (λ a, b a = true) l).

Lemma sum_b2n_0 b l :
  sum_list_with (λ a, Nat.b2n (b a)) l = 0 → Forall (λ a, b a = false) l.
Proof.
  induction l as [|a l IH]; cbn [sum_list_with]; [constructor|].
  destruct (b a) eqn:Hb; cbn; [lia|]. intros H. constructor; [done|by apply IH].
Qed.

Lemma first_true_cons b a l :
  first_true b (a :: l) = if b a then Some a else first_true b l.
Proof.
  unfold first_true. rewrite filter_cons.
  destruct (b a); [by rewrite decide_True|by rewrite decide_False].
Qed.

Lemma first_true_none b l : Forall (λ a, b a = false) l → first_true b l = None.
Proof.
  induction 1 as [|a l Ha _ IH]; [done|]. by rewrite first_true_cons, Ha.
Qed.

Lemma first_true_elem b l a : first_true b l = Some a → a ∈ l ∧ b a = true.
Proof.
  induction l as [|a' l IH]; [done|]. rewrite first_true_cons.
  destruct (b a') eqn:Hb.
  - intros [= ->]. split; [left|done].
  - intros [??]%IH. split; [by right|done].
Qed.

(** Where at most one item is chosen, a sum over the chosen items is the
    term of the chosen item. *)
Lemma sum_single b (f : A → nat) l :
  sum_list_with (λ a, Nat.b2n (b a)) l ≤ 1 →
  sum_list_with (λ a, Nat.b2n (b a) * f a) l = from_option f 0 (first_true b l).
Proof.
  induction l as [|a l IH]; [done|]. cbn [sum_list_with].
  rewrite first_true_cons. destruct (b a) eqn:Hb; cbn; intros Hle.
  - rewrite sum_list_with_0; [lia|]. intros a' Ha'.
    assert (Forall (λ a, b a = false) l) as Hz by (apply sum_b2n_0; lia).
    rewrite Forall_forall in Hz. by rewrite (Hz a' Ha').
  - by apply IH.
Qed.

Lemma first_true_zero b l :
  first_true b l = None → sum_list_with (λ a, Nat.b2n (b a)) l = 0.
Proof.
  induction l as [|a l IH]; [done|]. rewrite first_true_cons. cbn [sum_list_with].
  destruct (b a); [done|]. intros H. by rewrite IH.
Qed.

Lemma bind_single {B} b (g : A → B) l :
  sum_list_with (λ a, Nat.b2n (b a)) l ≤ 1 →
  (a ← l; if b a then [g a] else []) = option_list (g <$> first_true b l).
Proof.
  induction l as [|a l IH]; [done|]. cbn [sum_list_with mbind list_bind].
  rewrite first_true_cons. destruct (b a) eqn:Hb; cbn; intros Hle.
  - assert (Forall (λ a, b a = false) l) as Hz by (apply sum_b2n_0; lia).
    clear IH Hle. induction Hz as [|a' l Ha' _ IH]; [done|].
    cbn [mbind list_bind]. by rewrite Ha'.
  - by apply IH.
Qed.
End single.

Section gaps.
Implicit Types (T : option tagset) (Ts : list (option tagset)).

(** The score across two neighbouring positions: 0 unless both are
    occupied. *)
Definition step_score T T' : nat :=
  match T, T' with
  | Some A, Some B => Slideshow.get_transition_score A B
  | _, _ => 0
  end.

Fixpoint gap_sum Ts : nat :=
  match Ts with
  | T :: (T' :: _) as rest => step_score T T' + gap_sum rest
  | _ => 0
  end.

(** The occupied positions, in order. *)
Definition occupied Ts : list tagset := omap (λ T, T) Ts.

Lemma adjacent_sum_tail (A : tagset) (l : list tagset) :
  adjacent_sum l ≤ adjacent_sum (A :: l).
Proof. destruct l as [|B l]; [done|]. rewrite adjacent_sum_cons. lia. Qed.

Lemma gap_sum_le Ts : gap_sum Ts ≤ adjacent_sum (occupied Ts).
Proof.
  induction Ts as [|T Ts IH]; [done|]. destruct Ts as [|T' Ts].
  { by destruct T. }
  destruct T as [A|]; [|exact IH].
  destruct T' as [B|].
  - change (occupied (Some A :: Some B :: Ts)) with (A :: B :: occupied Ts).
    change (occupied (Some B :: Ts)) with (B :: occupied Ts) in IH.
    rewrite adjacent_sum_cons. cbn [gap_sum step_score] in *.
    change (SolutionChecker.compute_transition_score A B)
      with (Slideshow.get_transition_score A B). lia.
  - change (occupied (Some A :: None :: Ts)) with (A :: occupied Ts).
    change (occupied (None :: Ts)) with (occupied Ts) in IH.
    etrans; [|apply adjacent_sum_tail]. cbn [gap_sum step_score] in *. lia.
Qed.

(** Without an empty position before an occupied one, nothing is lost. *)
Lemma gap_sum_eq (As : list tagset) (k : nat) :
  gap_sum ((Some <$> As) ++ replicate k None) = adjacent_sum As.
Proof.
  induction As as [|A As IH].
  { cbn [fmap list_fmap app]. induction k as [|[|k] IHk]; [done|done|].
    cbn [replicate gap_sum] in *. by rewrite IHk. }
  destruct As as [|B As].
  - cbn [fmap list_fmap app] in *. destruct k as [|k]; [done|].
    cbn [replicate gap_sum step_score] in *. by rewrite IH.
  - cbn [fmap list_fmap app gap_sum step_score] in *.
    rewrite IH, adjacent_sum_cons. done.
Qed.

Lemma gap_sum_seq (T : nat → option tagset) (s m : nat) :
  gap_sum (T <$> seq s (S m))
  = sum_list_with (λ p, step_score (T p) (T (p + 1))) (seq s m).
Proof.
  revert s. induction m as [|m IH]; intros s; [done|].
  cbn [seq fmap list_fmap gap_sum sum_list_with] in *.
  rewrite <-(IH (S s)). by rewrite Nat.add_1_r.
Qed.
End gaps.

Section gaps_more.
Implicit Types (T : option tagset) (Ts : list (option tagset)).

(** No empty position stands before an occupied one. *)
Definition no_gap Ts : Prop :=
  ∀ i A, Ts !! i = Some None → Ts !! S i = Some (Some A) → False.

Lemma no_gap_tail T Ts : no_gap (T :: Ts) → no_gap Ts.
Proof. intros H i A Hi HS. exact (H (S i) A Hi HS). Qed.

Lemma no_gap_empty Ts :
  no_gap (None :: Ts) → gap_sum (None :: Ts) = 0 ∧ occupied Ts = [].
Proof.
  induction Ts as [|T Ts IH]; intros H; [done|].
  destruct T as [A|]; [destruct (H 0 A); done|].
  destruct (IH (no_gap_tail _ _ H)) as [H1 H2]. split; [|exact H2].
  cbn [gap_sum step_score] in *. lia.
Qed.

Lemma gap_sum_no_gap Ts : no_gap Ts → gap_sum Ts = adjacent_sum (occupied Ts).
Proof.
  induction Ts as [|T Ts IH]; intros H; [done|].
  specialize (IH (no_gap_tail _ _ H)).
  destruct T as [A|].
  - destruct Ts as [|[B|] Ts]; [done| |].
    + change (occupied (Some A :: Some B :: Ts)) with (A :: B :: occupied Ts).
      change (occupied (Some B :: Ts)) with (B :: occupied Ts) in IH.
      rewrite adjacent_sum_cons. cbn [gap_sum step_score] in *. by rewrite IH.
    + destruct (no_gap_empty Ts (no_gap_tail _ _ H)) as [H1 H2].
      change (occupied (Some A :: None :: Ts)) with (A :: occupied Ts).
      rewrite H2. cbn [gap_sum step_score] in *. by rewrite H1.
  - destruct (no_gap_empty Ts H) as [H1 H2].
    change (occupied (None :: Ts)) with (occupied Ts). by rewrite H1, H2.
Qed.
End gaps_more.

Lemma sum_list_with_scale {A} (c : nat) (f : A → nat) (l : list A) :
  sum_list_with (λ a, c * f a) l = c * sum_list_with f l.
Proof. induction l as [|a l IH]; cbn [sum_list_with]; lia. Qed.

Lemma score_self (A : tagset) : Slideshow.get_transition_score A A = 0.
Proof.
  unfold Slideshow.get_transition_score, Py.min3.
  assert (A ∖ A = ∅) as -> by set_solver. rewrite size_empty. lia.
Qed.

Lemma bind_option_list {A B} (f : A → option B) (l : list A) :
  (a ← l; option_list (f a)) = omap f l.
Proof.
  induction l as [|a l IH]; [done|]. cbn [mbind list_bind omap list_omap] in *.
  rewrite IH. by destruct (f a).
Qed.

Section objective.
Import Slideshow.
Variable photos : list Photo.
Hypothesis Hidx : indexed photos.
Variable self : optimizer.
Hypothesis Hinit : init photos = Return self.
Variable x : unit_key → nat → bool.
Hypothesis Hc : constraints self x.

(** The unit placed at position [p], and its tags. *)
Definition placed (p : nat) : option unit_key :=
  first_true (λ u, x u p) (units self).

Definition placed_tags (p : nat) : option tagset :=
  unit_tags photos <$> placed p.

Lemma init_fields :
  horizontal_photos self = horizontal_ids photos
  ∧ vertical_pairs self = combinations2 (vertical_ids photos)
  ∧ n_photos self = length photos
  ∧ table_of photos (λ k, k.1 ∈ units self ∧ k.2 ∈ units self ∧ k.1 ≠ k.2)
      (transition_scores self).
Proof.
  destruct (init_table photos Hidx) as (self' & Hinit' & H).
  rewrite Hinit in Hinit'. by injection Hinit' as <-.
Qed.

Lemma load_le (p : nat) :
  p < n_photos self → sum_list_with (λ u, Nat.b2n (x u p)) (units self) ≤ 1.
Proof.
  intros Hp. rewrite <-position_load_units. destruct Hc as [Hpos _].
  rewrite Forall_forall in Hpos. apply Hpos, elem_of_seq. lia.
Qed.

Lemma checker_tags i :
  is_photo_id photos i →
  from_option tags ∅ (SolutionChecker.photos (SolutionChecker.init photos) !! i)
  = tags_of photos i.
Proof.
  intros (p & -> & Hp)%list_elem_of_fmap.
  by rewrite (checker_lookup photos Hidx p Hp), (tags_of_id photos Hidx p Hp).
Qed.

Lemma slide_tags_unit u :
  u ∈ units self →
  slide_tags (SolutionChecker.init photos) (slide_of u) = unit_tags photos u.
Proof.
  destruct init_fields as (Hh & Hp & _). unfold units. rewrite Hh, Hp.
  intros [(i & -> & Hi)%list_elem_of_fmap|([a b] & -> & Hab)%list_elem_of_fmap]%elem_of_app;
    unfold slide_tags; cbn [slide_of unit_tags fmap list_fmap union_list foldr fst snd].
  - rewrite checker_tags by by apply horizontal_ids_photo.
    by rewrite (right_id_L ∅ (∪)).
  - apply (combinations2_distinct _ _ _ (NoDup_vertical_ids photos Hidx)) in Hab
      as (_ & Ha & Hb).
    rewrite !checker_tags by by apply vertical_ids_photo.
    by rewrite (right_id_L ∅ (∪)).
Qed.
Lemma extract_placed :
  extract self x = omap (λ p, slide_of <$> placed p) (seq 0 (n_photos self)).
Proof.
  rewrite extract_rows.
  assert (Forall (λ p, p < n_photos self) (seq 0 (n_photos self))) as Hl.
  { apply Forall_forall. intros p Hp%elem_of_seq. lia. }
  induction Hl as [|p l Hp _ IH]; [done|].
  cbn [mbind list_bind omap list_omap] in *. rewrite IH, extract_position.
  rewrite (bind_single _ slide_of) by by apply load_le.
  unfold placed. by destruct (first_true _ _).
Qed.

Lemma tags_extract :
  slide_tags (SolutionChecker.init photos) <$> extract self x
  = occupied (placed_tags <$> seq 0 (n_photos self)).
Proof.
  rewrite extract_placed. unfold occupied.
  induction (seq 0 (n_photos self)) as [|p l IH]; [done|].
  rewrite fmap_cons. cbn [omap list_omap]. unfold placed_tags at 1.
  destruct (placed p) as [u|] eqn:Hu; cbn [fmap option_fmap option_map]; [|done].
  rewrite fmap_cons, IH. f_equal. apply slide_tags_unit.
  by apply first_true_elem in Hu as [? _].
Qed.

(** A term of the objective. *)
Definition weight (i j : unit_key) : nat :=
  if decide (i ≠ j) then default 0 (transition_scores self !! (i, j)) else 0.

Lemma weight_units i j :
  i ∈ units self → j ∈ units self →
  weight i j = get_transition_score (unit_tags photos i) (unit_tags photos j).
Proof.
  intros Hi Hj. unfold weight. destruct (decide (i ≠ j)) as [Hne|Heq].
  - destruct init_fields as (_ & _ & _ & Ht).
    destruct (Ht (i, j)) as [-> _]; done.
  - apply dec_stable in Heq as ->. by rewrite score_self.
Qed.

Lemma objective_position (p : nat) :
  S p < n_photos self →
  sum_list_with (λ i,
    sum_list_with (λ j,
      if decide (i ≠ j)
      then default 0 (transition_scores self !! (i, j))
           * Nat.b2n (x i p) * Nat.b2n (x j (p + 1))
      else 0)
    (units self))
  (units self)
  = step_score (placed_tags p) (placed_tags (p + 1)).
Proof.
  intros Hp.
  rewrite (sum_list_with_ext_in _
    (λ i, Nat.b2n (x i p) * from_option (weight i) 0 (placed (p + 1)))).
  2:{ intros i _. unfold placed.
      rewrite <-(sum_single (λ j, x j (p + 1)) (weight i)) by (apply load_le; lia).
      rewrite <-sum_list_with_scale. apply sum_list_with_ext_in. intros j _.
      unfold weight. destruct (decide (i ≠ j)); lia. }
  rewrite (sum_single (λ i, x i p)) by (apply load_le; lia).
  unfold placed_tags. fold (placed p).
  destruct (placed p) as [i|] eqn:Hi; [|done].
  destruct (placed (p + 1)) as [j|] eqn:Hj; [|done].
  apply first_true_elem in Hi as [Hi _]. apply first_true_elem in Hj as [Hj _].
  cbn. by apply weight_units.
Qed.

Lemma objective_gap :
  objective self x = gap_sum (placed_tags <$> seq 0 (n_photos self)).
Proof.
  unfold objective. destruct (n_photos self) as [|m] eqn:Hm; [done|].
  rewrite gap_sum_seq. cbn [Nat.sub]. rewrite Nat.sub_0_r.
  apply sum_list_with_ext_in. intros p Hp%elem_of_seq.
  apply objective_position. lia.
Qed.

Lemma placed_no_gap :
  (∀ p, S p < n_photos self →
        position_load self x p = 0 → position_load self x (S p) = 0) →
  no_gap (placed_tags <$> seq 0 (n_photos self)).
Proof.
  intros Hgap i A Hi HS.
  apply list_lookup_fmap_Some in Hi as (p & Hi & Hp).
  apply list_lookup_fmap_Some in HS as (q & HS & Hq).
  apply lookup_seq in Hp as [-> Hlt]. apply lookup_seq in Hq as [-> Hlt'].
  cbn in *. unfold placed_tags in *.
  destruct (placed i) eqn:Hpi; [done|].
  apply first_true_zero in Hpi. rewrite <-position_load_units in Hpi.
  apply Hgap in Hpi; [|done]. rewrite position_load_units in Hpi.
  apply sum_b2n_0, first_true_none in Hpi. unfold placed in HS.
  by rewrite Hpi in HS.
Qed.

Lemma score_extract :
  SolutionChecker.compute_score (SolutionChecker.init photos) (extract self x)
  = Return (adjacent_sum (occupied (placed_tags <$> seq 0 (n_photos self)))).
Proof.
  destruct init_fields as (Hh & Hp & Hn & _).
  rewrite compute_score_cases, decide_True, tags_extract; [done|].
  by destruct (extract_feasible photos Hidx self Hn Hh Hp x Hc) as (_ & _ & ? & _).
Qed.
End objective.

(** X17: on a catalog numbered in order, at values that meet the
    constraints, the objective [optimize] maximises is at most the score
    the checker computes for the slides [optimize] returns; the two are
    equal when no empty position stands before an occupied one. *)
Theorem X17_objective_score (photos : list Photo) (self : Slideshow.optimizer)
    (x : Slideshow.unit_key → nat → bool) :
  indexed photos →
  Slideshow.init photos = Return self →
  Slideshow.constraints self x →
  ∃ score,
    SolutionChecker.compute_score (SolutionChecker.init photos)
      (Slideshow.extract self x) = Return score
    ∧ objective self x ≤ score
    ∧ ((∀ p, S p < Slideshow.n_photos self →
             Slideshow.position_load self x p = 0 →
             Slideshow.position_load self x (S p) = 0) →
       objective self x = score).
Proof.
  intros Hidx Hinit Hc. eexists. split; [by apply score_extract|].
  rewrite (objective_gap photos Hidx self Hinit x Hc). split.
  - apply gap_sum_le.
  - intros Hgap. apply gap_sum_no_gap. by eapply placed_no_gap.
Qed.

(** X17 on the example catalog: the two horizontal photos, then the
    pair; objective and score are both 1. *)
Lemma X17_objective_score_witness :
  indexed example_photos
  ∧ ∃ self, Slideshow.init example_photos = Return self
      ∧ Slideshow.constraints self (Slideshow.X example_solved)
      ∧ ∃ score,
          SolutionChecker.compute_score (SolutionChecker.init example_photos)
            (Slideshow.extract self (Slideshow.X example_solved)) = Return score
          ∧ objective self (Slideshow.X example_solved) ≤ score.
Proof.
  split; [apply example_indexed|].
  destruct example_optimizer as (self & Hinit & _ & _ & _ & Hc).
  exists self. split; [done|]. split; [done|].
  destruct (X17_objective_score example_photos self _ example_indexed Hinit Hc)
    as (score & Hs & Hle & _).
  by exists score.
Defined.


(** ** The two programs, end to end *)

(** [main] of slideshow.py, on the text of the input file; the engine is
    given by what it leaves in the model when it stops. The result is the
    text written into the solution file, if [main] writes it, and what
    [main] prints. *)
Module OptimizerProgram.
Import Slideshow.

Inductive printed : Type :=
  | Found (score : Q)   (* Solution trouvée avec un score de : {score} *)
  | NotFound.           (* Aucune solution trouvée *)

Definition main (input : str) (engine : optimizer → solved)
    : result (option str * printed) :=
  photos ← read_input input;
  optimizer ← init photos;
  let '(solution, score) := optimize optimizer (engine optimizer) in
  Return (match solution with
          | Some (slide :: rest) => (Some (write_solution (slide :: rest)), Found score)
          | _ => (None, NotFound)
          end).

End OptimizerProgram.

(** [main] of project/VerificationSolution.py, on the texts of the input
    file and of the solution file; the result is what [main] prints. *)
Module CheckerProgram.
Import SolutionChecker.

Inductive printed : Type :=
  | Invalid (message : verdict)   (* Solution invalide : {message} *)
  | Scored (score : nat).         (* Solution valide ! Score total : {score} *)

Definition main (input solution_file : str) : result printed :=
  photos ← read_input_file input;
  let checker := init photos in
  slides ← read_solution_file solution_file;
  v ← is_valid_solution checker slides;
  match v with
  | Valid => score ← compute_score checker slides; Return (Scored score)
  | message => Return (Invalid message)
  end.

End CheckerProgram.

Section programs.
Implicit Types (photos : list Photo) (slides : list (list Z)).

(** What [main] of the checker prints for a verdict. *)
Definition report (self : SolutionChecker.checker) slides
    (v : SolutionChecker.verdict) : CheckerProgram.printed :=
  match v with
  | SolutionChecker.Valid =>
      CheckerProgram.Scored (adjacent_sum (slide_tags self <$> slides))
  | message => CheckerProgram.Invalid message
  end.

Lemma checker_main_read input solution_file photos slides :
  SolutionChecker.read_input_file input = Return photos →
  SolutionChecker.read_solution_file solution_file = Return slides →
  ∃ v, SolutionChecker.is_valid_solution (SolutionChecker.init photos) slides = Return v
    ∧ CheckerProgram.main input solution_file
      = Return (report (SolutionChecker.init photos) slides v).
Proof.
  intros Hp Hs. unfold CheckerProgram.main. rewrite Hp, bind_Return, Hs, bind_Return.
  destruct (check_slides_total (SolutionChecker.init photos) ∅ 0 slides) as [v Hv].
  exists v. split; [done|]. unfold SolutionChecker.is_valid_solution at 1.
  rewrite Hv, bind_Return. destruct v; try done.
  apply is_valid_solution_valid in Hv as (_ & _ & Hk & _).
  by rewrite compute_score_cases, decide_True.
Qed.

(** The solution file, as the optimizer writes it, read by the checker. *)
Lemma read_solution_written slides :
  Forall (λ slide, length slide = 1 ∨ length slide = 2) slides →
  SolutionChecker.read_solution_file (Slideshow.write_solution slides) = Return slides.
Proof.
  intros Hlen.
  unfold SolutionChecker.read_solution_file, Slideshow.write_solution.
  assert (Forall numeric (Py.str_of (Z.of_nat (length slides)))) as Hn
    by apply str_of_numeric.
  change ([Py.newline] ++ ?r) with (Py.newline :: r).
  rewrite readline_line.
  2:{ intros Hin. rewrite Forall_forall in Hn.
      by apply (numeric_not_newline _ (Hn _ Hin)). }
  rewrite int_strip, int_line, int_str_of.
  2:{ eapply Forall_impl; [done|]. apply numeric_nonspace. }
  cbn [or_raise]. rewrite bind_Return, Nat2Z.id.
  by apply read_slides_written.
Qed.

(** Two catalogs that differ in the tags only record the same
    orientations. *)
Lemma dict_orientation photos photos' (m m' : gmap Z Photo) (x : Z) :
  Forall2 same_but_tags photos photos' →
  is_horizontal <$> m !! x = is_horizontal <$> m' !! x →
  is_horizontal <$> foldl (λ m photo, <[id photo := photo]> m) m photos !! x
  = is_horizontal <$> foldl (λ m photo, <[id photo := photo]> m) m' photos' !! x.
Proof.
  intros H. revert m m'.
  induction H as [|p p' l l' (Hid & Hor & _) _ IH]; intros m m' Hm; [done|].
  cbn [foldl]. apply IH. rewrite <-Hid.
  destruct (decide (x = id p)) as [->|Hne].
  - rewrite !lookup_insert_eq. cbn. by f_equal.
  - by rewrite !lookup_insert_ne.
Qed.

Lemma init_orientation photos photos' :
  Forall2 same_but_tags photos photos' →
  ∀ x, orientation (SolutionChecker.init photos) x
       = orientation (SolutionChecker.init photos') x.
Proof. intros H x. by apply dict_orientation. Qed.

(** What the optimizer writes for a catalog it has read, the checker
    accepts on the catalog it reads from the same file. *)
Lemma written_accepted photos photos' (self : Slideshow.optimizer)
    (x : Slideshow.unit_key → nat → bool) :
  indexed photos →
  Slideshow.init photos = Return self →
  Slideshow.constraints self x →
  Forall2 same_but_tags photos photos' →
  SolutionChecker.read_solution_file
    (Slideshow.write_solution (Slideshow.extract self x))
  = Return (Slideshow.extract self x)
  ∧ SolutionChecker.is_valid_solution (SolutionChecker.init photos')
      (Slideshow.extract self x) = Return SolutionChecker.Valid.
Proof.
  intros Hidx Hinit Hc Hsame.
  destruct (init_fields photos Hidx self Hinit) as (Hh & Hp & Hn & _).
  pose proof (extract_feasible photos Hidx self Hn Hh Hp x Hc) as Hf.
  split.
  - apply read_solution_written. by destruct Hf as [? _].
  - unfold SolutionChecker.is_valid_solution.
    rewrite <-(check_slides_orientation (SolutionChecker.init photos))
      by by apply init_orientation.
    by apply is_valid_solution_valid.
Qed.
End programs.

(** X18: once the two files are read, [main] of the checker prints a
    result and raises nothing: the verdict of the validator when it is
    not [Valid], and else the sum of the transition scores of the
    adjacent slides. The [KeyError] of [compute_score] cannot occur
    here, the validator having seen every id. *)
Theorem X18_checker_main (input solution_file : str) (photos : list Photo)
    (slides : list (list Z)) :
  SolutionChecker.read_input_file input = Return photos →
  SolutionChecker.read_solution_file solution_file = Return slides →
  ∃ v, SolutionChecker.is_valid_solution (SolutionChecker.init photos) slides = Return v
    ∧ CheckerProgram.main input solution_file
      = Return (report (SolutionChecker.init photos) slides v).
Proof. apply checker_main_read. Qed.

(** X18 on the file of the example catalog and a solution file that
    shows a vertical photo alone. *)
Lemma X18_checker_main_witness :
  CheckerProgram.main
    (file_of ["4"; "H 2 a b"; "H 2 b c"; "V 1 x"; "V 1 y"])
    (file_of ["2"; "0"; "2"])
  = Return (CheckerProgram.Invalid (SolutionChecker.SingleVertical 1)).
Proof.
  destruct (X18_checker_main
    (file_of ["4"; "H 2 a b"; "H 2 b c"; "V 1 x"; "V 1 y"])
    (file_of ["2"; "0"; "2"]) example_photos [[0]; [2]]%Z) as (v & Hv & ->);
    [by vm_compute..|].
  assert (v = SolutionChecker.SingleVertical 1) as ->; [|done].
  vm_compute in Hv. by injection Hv as <-.
Defined.

(** X19: the two programs fit together. When [main] of the optimizer
    reads a file, the engine stops with values that meet the constraints
    posted, and [main] writes a solution file, then [main] of the checker,
    run on the same input file and on the file written, reads both,
    finds the solution valid and prints a score. *)
Theorem X19_written_solution_accepted (input : str)
    (engine : Slideshow.optimizer → Slideshow.solved)
    (written : str) (said : OptimizerProgram.printed) :
  (∀ photos self,
     Slideshow.read_input input = Return photos →
     Slideshow.init photos = Return self →
     Slideshow.constraints self (Slideshow.X (engine self))) →
  OptimizerProgram.main input engine = Return (Some written, said) →
  ∃ score, CheckerProgram.main input written = Return (CheckerProgram.Scored score).
Proof.
  intros Hengine. unfold OptimizerProgram.main.
  destruct (Slideshow.read_input input) as [photos|] eqn:Hread; [|done].
  rewrite bind_Return.
  destruct (Slideshow.init photos) as [self|] eqn:Hinit; [|done].
  rewrite bind_Return.
  pose proof (read_input_indexed _ _ Hread) as Hidx.
  pose proof (Hengine photos self eq_refl Hinit) as Hc. clear Hengine.
  rewrite read_input_header in Hread.
  pose proof (read_input_file_header input) as Hread'.
  destruct (Py.int _) as [n|]; [|done].
  apply checker_records_of_ok in Hread as (photos' & Hr' & Hsame).
  rewrite Hr' in Hread'.
  destruct (written_accepted photos photos' self _ Hidx Hinit Hc Hsame) as [Hfile Hvalid].
  unfold Slideshow.optimize.
  destruct (Slideshow.status (engine self));
    try (intros [=]; fail).
  all: destruct (Slideshow.extract self (Slideshow.X (engine self)))
         as [|slide rest] eqn:Hx; [intros [=]|].
  all: intros [= <- _].
  all: destruct (checker_main_read _ _ _ _ Hread' Hfile) as (v & Hv & ->).
  all: rewrite Hvalid in Hv; injection Hv as <-; by eexists.
Qed.

(** X19 on the file of the example catalog, the engine leaving the two
    horizontal photos and then the pair. *)
Lemma X19_written_solution_accepted_witness :
  OptimizerProgram.main
    (file_of ["4"; "H 2 a b"; "H 2 b c"; "V 1 x"; "V 1 y"]) (λ _, example_solved)
  = Return (Some (file_of ["3"; "0"; "1"; "2 3"]), OptimizerProgram.Found 1%Q)
  ∧ ∃ score, CheckerProgram.main
               (file_of ["4"; "H 2 a b"; "H 2 b c"; "V 1 x"; "V 1 y"])
               (file_of ["3"; "0"; "1"; "2 3"])
             = Return (CheckerProgram.Scored score).
Proof.
  assert (OptimizerProgram.main
    (file_of ["4"; "H 2 a b"; "H 2 b c"; "V 1 x"; "V 1 y"]) (λ _, example_solved)
    = Return (Some (file_of ["3"; "0"; "1"; "2 3"]), OptimizerProgram.Found 1%Q)) as Hm
    by by vm_compute.
  split; [done|].
  apply (X19_written_solution_accepted _ (λ _, example_solved) _
           (OptimizerProgram.Found 1%Q)); [|exact Hm].
  intros photos self Hread Hinit.
  assert (photos = example_photos) as ->.
  { vm_compute in Hread. by injection Hread as <-. }
  destruct example_optimizer as (self' & Hinit' & _ & _ & _ & Hc).
  rewrite Hinit in Hinit'. by injection Hinit' as <-.
Defined.

